(** * Blank-Cache: the eviction-policy engine of [src/lib/cache.ts]

    A shallow embedding of the [Cache] factory of [src/lib/cache.ts] and of
    the closure state it captures, followed by the properties of the four
    policies (LRU, LFU, FIFO, EXPIRE).

    Modelling choices, all taken from the source:
    - a JavaScript [Map] iterates in insertion order and [Map.set] on an
      existing key keeps the key's position, so the entry map is an
      association list with the operations of section [ordered_map];
    - [number] fields hold integers (counters, ranks, millisecond
      timestamps) and are values of [Z];
    - [crypto.randomUUID()] and [Date.now()] are inputs of the operation
      that calls them ([key] and [now]);
    - [setTimeout]/[clearTimeout] act on a table of pending timeouts kept in
      the state ([rt_timeouts], [rt_next]); handles are positive integers;
    - [expires : number | false] is an [option Z], [None] standing for
      [false]; a result [T | undefined] is an [option T]. *)

From Stdlib Require Import ZArith Lia.
From stdpp Require Import base list strings gmap fin_maps sorting.

Local Open Scope Z_scope.

(** ** JavaScript values used by the cache *)

(** A [number] that may be [Infinity]: the result of [Math.min(...xs)],
    which is [Infinity] on an empty argument list. *)
Inductive number : Type :=
  | Finite (z : Z)
  | Infinity.

Definition number_min (a : number) (x : Z) : number :=
  match a with
  | Infinity => Finite x
  | Finite z => Finite (Z.min z x)
  end.

Definition Math_min (xs : list Z) : number := fold_left number_min xs Infinity.

(** [x === n] for a finite [x]. *)
Definition strict_eq (x : Z) (n : number) : bool :=
  match n with
  | Finite z => x =? z
  | Infinity => false
  end.

(** Truthiness of a string ([""] is falsy) and of a number ([0] is falsy). *)
Definition truthy_string (k : string) : bool := negb (String.eqb k "").
Definition truthy_number (n : Z) : bool := negb (n =? 0).

(** Outcome of a call: it returns, or it throws an error of some name. *)
Inductive completion (A : Type) : Type :=
  | Normal (a : A)
  | Throw (name : string).
Arguments Normal {A} a.
Arguments Throw {A} name.

(** ** Insertion-ordered maps ([Map<string, A>]) *)

Section ordered_map.
Context {A : Type}.

Definition keys (m : list (string * A)) : list string := m.*1.

Fixpoint Map_get (k : string) (m : list (string * A)) : option A :=
  match m with
  | [] => None
  | (k', v) :: m' => if String.eqb k k' then Some v else Map_get k m'
  end.

(** [m.set(k, v)]: overwrite in place, or append a new key at the end. *)
Fixpoint Map_set (k : string) (v : A) (m : list (string * A)) : list (string * A) :=
  match m with
  | [] => [(k, v)]
  | (k', v') :: m' =>
      if String.eqb k k' then (k, v) :: m' else (k', v') :: Map_set k v m'
  end.

(** [m.delete(k)]; the keys of a [Map] are unique, and on a list with unique
    keys this removes the one entry of [k]. *)
Fixpoint Map_delete (k : string) (m : list (string * A)) : list (string * A) :=
  match m with
  | [] => []
  | (k', v') :: m' =>
      if String.eqb k k' then Map_delete k m' else (k', v') :: Map_delete k m'
  end.

Definition Map_size (m : list (string * A)) : Z := Z.of_nat (length m).

(** [for (const [key, value] of m) if (p(value)) return key; return undefined] *)
Fixpoint Map_find_key (p : A → bool) (m : list (string * A)) : option string :=
  match m with
  | [] => None
  | (k, v) :: m' => if p v then Some k else Map_find_key p m'
  end.

(** [for (const [key, value] of live(s)) body(key, value)] where the body
    mutates the state [s] that holds the map but never adds a key: the
    keys present at the start are visited in order, each with the value it
    has when it is reached, and a key deleted meanwhile is skipped. *)
Fixpoint for_of_keys {S : Type} (live : S → list (string * A))
    (body : string → A → S → S) (ks : list string) (s : S) : S :=
  match ks with
  | [] => s
  | k :: ks' =>
      for_of_keys live body ks'
        (match Map_get k (live s) with
         | Some v => body k v s
         | None => s
         end)
  end.

Definition for_of {S : Type} (live : S → list (string * A))
    (body : string → A → S → S) (s : S) : S :=
  for_of_keys live body (keys (live s)) s.
End ordered_map.

(** ** Configuration and entries *)

Inductive NonExpireType : Type := LRU | LFU | FIFO.

(** [type Option = ExpireOption | NonExpireOption] *)
Inductive Option : Type :=
  | ExpireOption (maxAge : Z)
  | NonExpireOption (max : Z) (type : NonExpireType).

(** The default argument of [Cache]. *)
Definition default_option : Option := NonExpireOption 10 LRU.

Section cache.
(** The type of the stored values ([unknown] in the source). *)
Context {V : Type}.

Record CacheEntry : Type := mkEntry {
  expires : option Z;
  content : V;
  index : Z;
  frequency : Z;
  insertedAt : Z
}.

Definition with_index (i : Z) (e : CacheEntry) : CacheEntry :=
  mkEntry (expires e) (content e) i (frequency e) (insertedAt e).
Definition with_frequency (f : Z) (e : CacheEntry) : CacheEntry :=
  mkEntry (expires e) (content e) (index e) f (insertedAt e).
Definition with_insertedAt (t : Z) (e : CacheEntry) : CacheEntry :=
  mkEntry (expires e) (content e) (index e) (frequency e) t.

(** The state captured by the closure: the two maps of [Cache], and the
    host's table of pending timeouts (handle to the key its callback
    deletes) with the next handle to hand out. *)
Record State : Type := mkState {
  cache : list (string * CacheEntry);
  timers : gmap string Z;
  rt_timeouts : gmap Z string;
  rt_next : Z
}.

Definition with_cache (c : list (string * CacheEntry)) (s : State) : State :=
  mkState c (timers s) (rt_timeouts s) (rt_next s).
Definition with_timers (t : gmap string Z) (s : State) : State :=
  mkState (cache s) t (rt_timeouts s) (rt_next s).

(** [setTimeout(() => { cache.delete(key); timers.delete(key) }, maxAge)] *)
Definition setTimeout (key : string) (s : State) : Z * State :=
  (rt_next s,
   mkState (cache s) (timers s) (<[rt_next s := key]> (rt_timeouts s)) (rt_next s + 1)).

Definition clearTimeout (timerId : Z) (s : State) : State :=
  mkState (cache s) (timers s) (delete timerId (rt_timeouts s)) (rt_next s).

(** The timeout [timerId] fires: its callback runs and the timeout is spent. *)
Definition timeout_fires (timerId : Z) (s : State) : State :=
  match rt_timeouts s !! timerId with
  | Some key =>
      mkState (Map_delete key (cache s)) (delete key (timers s))
              (delete timerId (rt_timeouts s)) (rt_next s)
  | None => s
  end.

(** [const timerId = timers.get(key);
     if (timerId) { clearTimeout(timerId); timers.delete(key); }] *)
Definition clear_timer (key : string) (s : State) : State :=
  match timers s !! key with
  | Some timerId =>
      if truthy_number timerId
      then with_timers (delete key (timers s)) (clearTimeout timerId s)
      else s
  | None => s
  end.

(** [cache.delete(key)] followed by the clearing of the key's timer: the
    body of the expiry branch of [get], [has] and [size]. *)
Definition expire_entry (key : string) (s : State) : State :=
  clear_timer key (with_cache (Map_delete key (cache s)) s).

Definition initial_state : State := mkState [] ∅ ∅ 1.

(** [function Cache(option = { max: 10, type: "LRU" })]: the body builds
    the two empty maps and returns the API object, a closure over [option]
    and the maps; it inspects no field of [option] and has no [throw]. The
    argument is [None] when the caller passes none. *)
Definition Cache (arg : option Option) : completion (Option * State) :=
  Normal (default default_option arg, initial_state).

(** ** The methods of [cacheAPI] *)

Definition _get_lru_key (s : State) : option string :=
  let maxIndex := Map_size (cache s) - 1 in
  Map_find_key (fun value => index value =? maxIndex) (cache s).

Definition _get_lfu_key (s : State) : option string :=
  let minFrequency := Math_min ((fun kv => frequency kv.2) <$> cache s) in
  Map_find_key (fun value => strict_eq (frequency value) minFrequency) (cache s).

Definition _get_fifo_key (s : State) : option string :=
  let minInsertedAt := Math_min ((fun kv => insertedAt kv.2) <$> cache s) in
  Map_find_key (fun value => strict_eq (insertedAt value) minInsertedAt) (cache s).

Definition _update_lru_entries (keyUnique : string) (s : State) : State :=
  with_cache
    (for_of id
       (fun key value c =>
          if String.eqb keyUnique key
          then Map_set key (with_index 0 value) c
          else Map_set key (with_index (index value + 1) value) c)
       (cache s)) s.

Definition _update_lfu_entries (keyUnique : string) (s : State) : State :=
  with_cache
    (for_of id
       (fun key value c =>
          if String.eqb keyUnique key
          then Map_set key (with_frequency (frequency value + 1) value) c
          else c)
       (cache s)) s.

Definition _update_fifo_entries (now : Z) (keyUnique : string) (s : State) : State :=
  with_cache
    (for_of id
       (fun key value c =>
          if String.eqb keyUnique key
          then Map_set key (with_insertedAt now value) c
          else c)
       (cache s)) s.

(** [Date.now() > entry.expires], guarded by
    [option.type === "EXPIRE" && entry.expires !== false]. *)
Definition is_expired (opt : Option) (now : Z) (e : CacheEntry) : bool :=
  match opt, expires e with
  | ExpireOption _, Some t => now >? t
  | _, _ => false
  end.

Definition get (opt : Option) (now : Z) (key : string) (s : State)
    : option V * State :=
  match Map_get key (cache s) with
  | None => (None, s)
  | Some cacheEntry =>
      if is_expired opt now cacheEntry
      then (None, expire_entry key s)
      else
        (Some (content cacheEntry),
         match opt with
         | NonExpireOption _ LRU => _update_lru_entries key s
         | NonExpireOption _ LFU => _update_lfu_entries key s
         | NonExpireOption _ FIFO => _update_fifo_entries now key s
         | ExpireOption _ => s
         end)
  end.

(** [if (victim && cache.size >= option.max) cache.delete(victim)] *)
Definition evict (max : Z) (victim : option string) (s : State) : State :=
  match victim with
  | Some k =>
      if truthy_string k && (Map_size (cache s) >=? max)
      then with_cache (Map_delete k (cache s)) s
      else s
  | None => s
  end.

Definition new_entry (exp : option Z) (value : V) (now : Z) : CacheEntry :=
  mkEntry exp value 0 0 now.

(** [set(value)]; [key] is the result of [crypto.randomUUID()]. *)
Definition set (opt : Option) (key : string) (now : Z) (value : V) (s : State)
    : string * State :=
  match opt with
  | NonExpireOption max LRU =>
      let s1 := evict max (_get_lru_key s) s in
      let s2 :=
        with_cache
          (for_of id
             (fun key value c => Map_set key (with_index (index value + 1) value) c)
             (cache s1)) s1 in
      (key, with_cache (Map_set key (new_entry None value now) (cache s2)) s2)
  | NonExpireOption max LFU =>
      let s1 := evict max (_get_lfu_key s) s in
      (key, with_cache (Map_set key (new_entry None value now) (cache s1)) s1)
  | NonExpireOption max FIFO =>
      let s1 := evict max (_get_fifo_key s) s in
      (key, with_cache (Map_set key (new_entry None value now) (cache s1)) s1)
  | ExpireOption maxAge =>
      let s1 :=
        with_cache (Map_set key (new_entry (Some (now + maxAge)) value now) (cache s)) s in
      let '(timerId, s2) := setTimeout key s1 in
      (key, with_timers (<[key := timerId]> (timers s2)) s2)
  end.

Definition clear (opt : Option) (s : State) : State :=
  let s1 :=
    match opt with
    | ExpireOption _ =>
        with_timers ∅
          (foldr clearTimeout s (map_to_list (timers s)).*2)
    | NonExpireOption _ _ => s
    end in
  with_cache [] s1.

Definition remove (opt : Option) (key : string) (s : State) : State :=
  let s1 :=
    match opt with
    | ExpireOption _ => clear_timer key s
    | NonExpireOption _ _ => s
    end in
  with_cache (Map_delete key (cache s1)) s1.

Definition has (opt : Option) (now : Z) (key : string) (s : State)
    : bool * State :=
  match Map_get key (cache s) with
  | None => (false, s)
  | Some entry =>
      if is_expired opt now entry
      then (false, expire_entry key s)
      else (true, s)
  end.

Definition size (opt : Option) (now : Z) (s : State) : Z * State :=
  let s1 :=
    match opt with
    | ExpireOption _ =>
        for_of cache
          (fun key entry s' =>
             if is_expired opt now entry then expire_entry key s' else s')
          s
    | NonExpireOption _ _ => s
    end in
  (Map_size (cache s1), s1).

Definition get_state_of_cache (s : State) : list (string * CacheEntry) := cache s.

(** ** Sequences of calls

    What can happen to a cache after its construction: a call of a method
    by the owner, or a pending timeout firing. *)
Inductive Op : Type :=
  | OpSet (key : string) (now : Z) (value : V)
  | OpGet (now : Z) (key : string)
  | OpHas (now : Z) (key : string)
  | OpRemove (key : string)
  | OpClear
  | OpSize (now : Z)
  | OpTimeout (timerId : Z).

Definition exec (opt : Option) (op : Op) (s : State) : State :=
  match op with
  | OpSet key now value => (set opt key now value s).2
  | OpGet now key => (get opt now key s).2
  | OpHas now key => (has opt now key s).2
  | OpRemove key => remove opt key s
  | OpClear => clear opt s
  | OpSize now => (size opt now s).2
  | OpTimeout timerId => timeout_fires timerId s
  end.

Fixpoint run (opt : Option) (ops : list Op) (s : State) : State :=
  match ops with
  | [] => s
  | op :: ops' => run opt ops' (exec opt op s)
  end.

(** What the environment guarantees: [crypto.randomUUID()] returns a
    non-empty string that is not a key of the cache. *)
Definition fresh_uuid (key : string) (s : State) : bool :=
  truthy_string key && negb (bool_decide (is_Some (Map_get key (cache s)))).

Definition env_ok (op : Op) (s : State) : bool :=
  match op with
  | OpSet key _ _ => fresh_uuid key s
  | _ => true
  end.

Fixpoint trace_ok (opt : Option) (ops : list Op) (s : State) : bool :=
  match ops with
  | [] => true
  | op :: ops' => env_ok op s && trace_ok opt ops' (exec opt op s)
  end.

(** The states a cache built with [opt] can be in. *)
Definition reachable (opt : Option) (s : State) : Prop :=
  ∃ ops, trace_ok opt ops initial_state = true ∧ s = run opt ops initial_state.
End cache.

Arguments CacheEntry : clear implicits.
Arguments State : clear implicits.
Arguments Op : clear implicits.

(** * Vocabulary of the statements *)

Section map_update.
Context {A : Type}.

(** The map whose every value [v] under key [k] is replaced by [g k v]. *)
Definition Map_update (g : string → A → A) m : list (string * A) :=
  (λ kv, (kv.1, g kv.1 kv.2)) <$> m.
End map_update.

Section vocabulary.
Context {V : Type}.
Implicit Types (s : State V) (e : CacheEntry V) (opt : Option).

(** The new value of an entry after [_update_lru_entries keyUnique]. *)
Definition lru_touch (keyUnique k : string) (e : CacheEntry V) : CacheEntry V :=
  if String.eqb keyUnique k then with_index 0 e else with_index (index e + 1) e.

Definition lfu_touch (keyUnique k : string) (e : CacheEntry V) : CacheEntry V :=
  if String.eqb keyUnique k then with_frequency (frequency e + 1) e else e.

Definition fifo_touch (now : Z) (keyUnique k : string) (e : CacheEntry V) : CacheEntry V :=
  if String.eqb keyUnique k then with_insertedAt now e else e.

(** The new value of an old entry after a [set] under LRU. *)
Definition lru_age (k : string) (e : CacheEntry V) : CacheEntry V :=
  with_index (index e + 1) e.

(** [set] under a bounded policy: evict, age the ranks (LRU only), insert. *)
Definition aged (type : NonExpireType) (c : list (string * CacheEntry V))
    : list (string * CacheEntry V) :=
  match type with
  | LRU => Map_update lru_age c
  | _ => c
  end.

Definition victim_of (type : NonExpireType) (s : State V) : option string :=
  match type with
  | LRU => _get_lru_key s
  | LFU => _get_lfu_key s
  | FIFO => _get_fifo_key s
  end.

(** [get] of a live key under a bounded policy. *)
Definition touched (type : NonExpireType) (now : Z) (key : string)
    (c : list (string * CacheEntry V)) : list (string * CacheEntry V) :=
  match type with
  | LRU => Map_update (lru_touch key) c
  | LFU => Map_update (lfu_touch key) c
  | FIFO => Map_update (fifo_touch now key) c
  end.

(** The [timers] map and the host's pending timeouts mirror each other,
    and a key has a timer exactly when it has an entry. *)
Definition timers_sync s : Prop :=
  (∀ k id, timers s !! k = Some id ↔ rt_timeouts s !! id = Some k)
  ∧ (∀ k, is_Some (timers s !! k) ↔ k ∈ keys (cache s))
  ∧ (∀ id k, rt_timeouts s !! id = Some k → 0 < id < rt_next s)
  ∧ 0 < rt_next s.

Definition timers_inv opt s : Prop :=
  match opt with
  | ExpireOption _ => timers_sync s
  | NonExpireOption _ _ => timers s = ∅ ∧ rt_timeouts s = ∅
  end.

Definition entry_ok opt (kv : string * CacheEntry V) : Prop :=
  truthy_string kv.1 = true
  ∧ match opt with
    | ExpireOption _ => is_Some (expires kv.2)
    | NonExpireOption _ _ => expires kv.2 = None
    end.

Definition Inv opt s : Prop :=
  NoDup (keys (cache s)) ∧ Forall (entry_ok opt) (cache s) ∧ timers_inv opt s.

(** The deadline of the entry has passed at time [now]. *)
Definition overdue (now : Z) (e : CacheEntry V) : bool :=
  match expires e with
  | Some t => now >? t
  | None => false
  end.

(** The sweep of [size] under EXPIRE, as a loop over some keys. *)
Definition sweep (opt : Option) (now : Z) (ks : list string) (s : State V) : State V :=
  for_of_keys cache
    (fun key entry s' => if is_expired opt now entry then expire_entry key s' else s')
    ks s.

(** The field whose minimum picks the victim: [frequency] under LFU,
    [insertedAt] under FIFO. (LRU does not pick by a minimum: its victim is
    the entry whose [index] is [cache.size - 1].) *)
Definition eviction_key (type : NonExpireType) (e : CacheEntry V) : Z :=
  match type with
  | LFU => frequency e
  | _ => insertedAt e
  end.

Definition ranks_of (c : list (string * CacheEntry V)) : list Z :=
  (λ kv, index kv.2) <$> c.

(** The ranks are [0, ..., n-1], each once, for [n] entries. *)
Definition ranked (c : list (string * CacheEntry V)) : Prop :=
  ranks_of c ≡ₚ seqZ 0 (Map_size c).

Definition ranks s : list Z := ranks_of (cache s).

Definition rank_invariant s : Prop := ranked (cache s).
End vocabulary.

(** The configurations the documentation calls consistent: a positive [max]
    for LRU, LFU and FIFO, a positive [maxAge] for EXPIRE. *)
Definition consistent (opt : Option) : bool :=
  match opt with
  | ExpireOption maxAge => 0 <? maxAge
  | NonExpireOption max _ => 0 <? max
  end.

(** ** Concrete caches and call sequences

    Caches of strings with capacity 3 (or a maximal age of 10 ms); the keys
    ["a"], ["b"], ... stand for the UUIDs and the second argument of a call
    is the time it is made at. *)

Definition lru3 : Option := NonExpireOption 3 LRU.
Definition fifo3 : Option := NonExpireOption 3 FIFO.
Definition lfu3 : Option := NonExpireOption 3 LFU.
Definition expire10 : Option := ExpireOption 10.

(** Three insertions, then a read of the second entry. *)
Definition read_middle : list (Op string) :=
  [OpSet "a" 1 "A"; OpSet "b" 2 "B"; OpSet "c" 3 "C"; OpGet 4 "b"].

(** Two insertions, then the removal of the second entry. *)
Definition remove_newest : list (Op string) :=
  [OpSet "a" 1 "A"; OpSet "b" 2 "B"; OpRemove "b"].

Definition three_timed : list (Op string) :=
  [OpSet "a" 1 "A"; OpSet "b" 2 "B"; OpSet "c" 3 "C"].

(** Four insertions at increasing times. *)
Definition four_inserted : list (Op string) :=
  [OpSet "a" 1 "A"; OpSet "b" 2 "B"; OpSet "c" 3 "C"; OpSet "d" 4 "D"].

(** Three insertions, then a read of the first entry. *)
Definition read_first : list (Op string) :=
  [OpSet "a" 1 "A"; OpSet "b" 2 "B"; OpSet "c" 3 "C"; OpGet 4 "a"].

(** Three insertions, two reads of the first entry and one of the last. *)
Definition read_first_and_last : list (Op string) :=
  [OpSet "a" 1 "A"; OpSet "b" 2 "B"; OpSet "c" 3 "C";
   OpGet 4 "a"; OpGet 5 "a"; OpGet 6 "c"].

(** ** Call sequences that only insert *)

(** The last [max] elements of a list. *)
Definition window (max : Z) (l : list string) : list string :=
  drop (length l - Z.to_nat max) l.

Section insertions.
Context {V : Type}.

(** The keys a call sequence inserts, in order. *)
Fixpoint inserted_keys (ops : list (Op V)) : list string :=
  match ops with
  | [] => []
  | OpSet key _ _ :: ops' => key :: inserted_keys ops'
  | _ :: ops' => inserted_keys ops'
  end.

(** Every call is a [set], and the clock read by the calls starts at [t] or
    later and never goes back. *)
Fixpoint insertions_only (t : Z) (ops : list (Op V)) : bool :=
  match ops with
  | [] => true
  | OpSet _ now _ :: ops' => (t <=? now) && insertions_only now ops'
  | _ :: _ => false
  end.

(** Two entries with the content and the deadline they were stored with. *)
Definition same_payload (e' e : CacheEntry V) : Prop :=
  content e' = content e ∧ expires e' = expires e.

(** The shape of an entry map that was only inserted into, up to time [t]:
    under LRU the ranks count down to 0 along the map, under LFU every
    frequency is 0, under FIFO the insertion times grow along the map and
    none is after [t]. *)
Definition insertion_ordered (type : NonExpireType) (t : Z)
    (c : list (string * CacheEntry V)) : Prop :=
  match type with
  | LRU => ranks_of c = reverse (seqZ 0 (Map_size c))
  | LFU => Forall (λ kv, frequency kv.2 = 0) c
  | FIFO => StronglySorted Z.le ((λ kv, insertedAt kv.2) <$> c)
            ∧ Forall (λ kv, insertedAt kv.2 ≤ t) c
  end.
End insertions.

(** * Properties *)

(** ** [Math.min] *)

Lemma fold_number_min_Finite xs z :
  ∃ z', fold_left number_min xs (Finite z) = Finite z' ∧ z' ≤ z
        ∧ (z' = z ∨ z' ∈ xs) ∧ Forall (Z.le z') xs.
Proof.
  revert z. induction xs as [|x xs IH]; intros z; simpl.
  - exists z. repeat split; [lia | by left | constructor].
  - destruct (IH (Z.min z x)) as (z' & Heq & Hle & Hin & Hall).
    exists z'. split; [done|]. split; [lia|]. split.
    + destruct Hin as [->|Hin]; [|right; by constructor].
      destruct (Z.min_spec z x) as [[_ ->]|[_ ->]]; [by left|right; constructor].
    + constructor; [lia|done].
Qed.

Lemma Math_min_nil : Math_min [] = Infinity.
Proof. done. Qed.

Lemma Math_min_spec x xs :
  ∃ z, Math_min (x :: xs) = Finite z ∧ z ∈ x :: xs ∧ Forall (Z.le z) (x :: xs).
Proof.
  unfold Math_min; simpl.
  destruct (fold_number_min_Finite xs x) as (z & Heq & Hle & Hin & Hall).
  exists z. split; [done|]. split.
  - destruct Hin as [->|Hin]; [constructor|by constructor].
  - by constructor.
Qed.

(** ** Insertion-ordered maps *)

Section ordered_map_facts.
Context {A : Type}.
Implicit Types (m : list (string * A)) (k : string) (v : A).

Lemma Map_get_None k m : Map_get k m = None ↔ k ∉ keys m.
Proof.
  unfold keys. induction m as [|[k' v'] m IH]; simpl.
  - split; [intros _; apply not_elem_of_nil|done].
  - destruct (String.eqb_spec k k') as [->|Hne].
    + split; [done|]. intros []. constructor.
    + rewrite IH, not_elem_of_cons. tauto.
Qed.

Lemma Map_get_Some_elem k v m : Map_get k m = Some v → (k, v) ∈ m.
Proof.
  induction m as [|[k' v'] m IH]; simpl; [done|].
  destruct (String.eqb_spec k k') as [->|Hne].
  - intros [= ->]. constructor.
  - intros H. constructor. auto.
Qed.

Lemma Map_get_is_Some k m : is_Some (Map_get k m) ↔ k ∈ keys m.
Proof.
  destruct (Map_get k m) eqn:E.
  - split; [|by eauto]. intros _.
    destruct (decide (k ∈ keys m)) as [|Hn]; [done|].
    apply Map_get_None in Hn. congruence.
  - split; [by intros [? ?]|]. intros Hin. by apply Map_get_None in E.
Qed.

Lemma Map_get_elem k v m : NoDup (keys m) → (k, v) ∈ m → Map_get k m = Some v.
Proof.
  unfold keys. induction m as [|[k' v'] m IH]; simpl.
  - intros _ H. by apply elem_of_nil in H.
  - rewrite NoDup_cons. intros [Hnin Hnd] Hin.
    apply elem_of_cons in Hin as [[= -> ->]|Hin].
    + by rewrite String.eqb_refl.
    + destruct (String.eqb_spec k k') as [->|Hne]; [|auto].
      destruct Hnin. apply (list_elem_of_fmap_2 fst) in Hin. done.
Qed.

Lemma Map_get_set_eq k v m : Map_get k (Map_set k v m) = Some v.
Proof.
  induction m as [|[k' v'] m IH]; simpl.
  - by rewrite String.eqb_refl.
  - destruct (String.eqb_spec k k') as [->|Hne]; simpl.
    + by rewrite String.eqb_refl.
    + by apply String.eqb_neq in Hne as ->.
Qed.

Lemma Map_get_set_ne k k' v m : k ≠ k' → Map_get k' (Map_set k v m) = Map_get k' m.
Proof.
  intros Hne. induction m as [|[k1 v1] m IH]; simpl.
  - apply not_eq_sym, String.eqb_neq in Hne. by rewrite Hne.
  - destruct (String.eqb_spec k k1) as [->|Hne1]; simpl; [|by rewrite IH].
    apply not_eq_sym, String.eqb_neq in Hne. by rewrite Hne.
Qed.

Lemma Map_set_id k v m : Map_get k m = Some v → Map_set k v m = m.
Proof.
  induction m as [|[k' v'] m IH]; simpl; [done|].
  destruct (String.eqb_spec k k') as [->|Hne].
  - by intros [= ->].
  - intros H. by rewrite IH.
Qed.

(** Overwriting a present key keeps the order of the keys. *)
Lemma keys_Map_set_in k v m : k ∈ keys m → keys (Map_set k v m) = keys m.
Proof.
  unfold keys. induction m as [|[k' v'] m IH]; simpl.
  - intros H. by apply elem_of_nil in H.
  - destruct (String.eqb_spec k k') as [->|Hne]; simpl; [done|].
    rewrite elem_of_cons. intros [?|Hin]; [done|]. f_equal. by apply IH.
Qed.

(** A new key goes to the end. *)
Lemma Map_set_fresh k v m : Map_get k m = None → Map_set k v m = m ++ [(k, v)].
Proof.
  induction m as [|[k' v'] m IH]; simpl; [done|].
  destruct (String.eqb_spec k k') as [->|Hne]; [done|].
  intros H. by rewrite IH.
Qed.

Lemma Map_delete_filter k m : Map_delete k m = filter (λ kv, kv.1 ≠ k) m.
Proof.
  induction m as [|[k' v'] m IH]; simpl; [done|].
  destruct (String.eqb_spec k k') as [->|Hne].
  - rewrite filter_cons_False; [done|]. simpl. by intros [].
  - rewrite filter_cons_True; [|simpl; congruence]. by rewrite IH.
Qed.

Lemma Map_get_delete_eq k m : Map_get k (Map_delete k m) = None.
Proof.
  induction m as [|[k' v'] m IH]; simpl; [done|].
  destruct (String.eqb_spec k k') as [->|Hne]; simpl; [done|].
  by apply String.eqb_neq in Hne as ->.
Qed.

Lemma Map_get_delete_ne k k' m : k ≠ k' → Map_get k' (Map_delete k m) = Map_get k' m.
Proof.
  intros Hne. induction m as [|[k1 v1] m IH]; simpl; [done|].
  destruct (String.eqb_spec k k1) as [->|Hne1]; simpl.
  - apply not_eq_sym, String.eqb_neq in Hne. by rewrite Hne.
  - by rewrite IH.
Qed.

Lemma Map_delete_absent k m : Map_get k m = None → Map_delete k m = m.
Proof.
  induction m as [|[k' v'] m IH]; simpl; [done|].
  destruct (String.eqb_spec k k') as [->|Hne]; [done|].
  intros H. by rewrite IH.
Qed.

Lemma keys_Map_delete k m : keys (Map_delete k m) = filter (λ k', k' ≠ k) (keys m).
Proof.
  unfold keys. induction m as [|[k' v'] m IH]; simpl; [done|].
  destruct (String.eqb_spec k k') as [->|Hne].
  - by rewrite filter_cons_False by (by intros []).
  - rewrite filter_cons_True by congruence. simpl. f_equal. apply IH.
Qed.

Lemma NoDup_keys_Map_delete k m : NoDup (keys m) → NoDup (keys (Map_delete k m)).
Proof. rewrite keys_Map_delete. apply NoDup_filter. Qed.

Lemma NoDup_keys_Map_set k v m : NoDup (keys m) → NoDup (keys (Map_set k v m)).
Proof.
  intros Hnd. destruct (Map_get k m) eqn:E.
  - rewrite keys_Map_set_in; [done|]. apply Map_get_is_Some; eauto.
  - rewrite Map_set_fresh by done. unfold keys. rewrite fmap_app. simpl.
    apply NoDup_app. split; [done|]. split; [|apply NoDup_singleton].
    intros x Hx ->%list_elem_of_singleton. by apply Map_get_None in E.
Qed.

(** Deleting a present key of a map removes exactly one entry. *)
Lemma length_Map_delete k m :
  NoDup (keys m) → is_Some (Map_get k m) → S (length (Map_delete k m)) = length m.
Proof.
  unfold keys. induction m as [|[k' v'] m IH]; simpl.
  - by intros _ [? ?].
  - rewrite NoDup_cons. intros [Hnin Hnd].
    destruct (String.eqb_spec k k') as [->|Hne]; simpl.
    + intros _. rewrite Map_delete_absent; [done|]. by apply Map_get_None.
    + intros H. by rewrite IH.
Qed.

Lemma length_Map_set_fresh k v m :
  Map_get k m = None → length (Map_set k v m) = S (length m).
Proof. intros H. rewrite Map_set_fresh by done. rewrite length_app. simpl. lia. Qed.

Lemma Map_find_key_Some p k m :
  Map_find_key p m = Some k →
  ∃ pre v post, m = pre ++ (k, v) :: post ∧ p v = true
                ∧ Forall (λ kv, p kv.2 = false) pre.
Proof.
  induction m as [|[k' v'] m IH]; simpl; [done|].
  destruct (p v') eqn:E.
  - intros [= ->]. by exists [], v', m.
  - intros (pre & v & post & -> & Hp & Hpre)%IH.
    exists ((k', v') :: pre), v, post. split; [done|]. split; [done|].
    by constructor.
Qed.

Lemma Map_find_key_None p m :
  Map_find_key p m = None ↔ Forall (λ kv, p kv.2 = false) m.
Proof.
  induction m as [|[k' v'] m IH]; simpl.
  - split; [constructor|done].
  - destruct (p v') eqn:E.
    + split; [done|]. intros H. apply Forall_cons in H as [H _]. simpl in H. congruence.
    + rewrite IH. split; [by constructor|]. by intros [_ ?]%Forall_cons.
Qed.
End ordered_map_facts.

(** ** Loops over a map *)

Lemma fmap_ext_elem {A B} (f g : A → B) (l : list A) :
  (∀ x, x ∈ l → f x = g x) → f <$> l = g <$> l.
Proof. intros H. apply Forall_fmap_ext_1, Forall_forall. exact H. Qed.

Lemma filter_ext_elem {A} (P Q : A → Prop) `{!∀ x, Decision (P x), !∀ x, Decision (Q x)}
    (l : list A) :
  (∀ x, x ∈ l → P x ↔ Q x) → filter P l = filter Q l.
Proof.
  induction l as [|a l IH]; intros Hext; [done|].
  assert (filter P l = filter Q l) as IH'.
  { apply IH. intros x Hx. apply Hext. by constructor. }
  destruct (decide (P a)) as [HP|HP].
  - rewrite !filter_cons_True; [by rewrite IH'| |done]. apply Hext; [constructor|done].
  - rewrite !filter_cons_False; [done| |done].
    intros HQ. apply HP, Hext; [constructor|done].
Qed.

Lemma filter_all {A} (P : A → Prop) `{!∀ x, Decision (P x)} (l : list A) :
  (∀ x, x ∈ l → P x) → filter P l = l.
Proof.
  induction l as [|a l IH]; intros Hall; [done|].
  rewrite filter_cons_True by (apply Hall; constructor).
  f_equal. apply IH. intros x Hx. apply Hall. by constructor.
Qed.

Section loops.
Context {A : Type}.
Implicit Types (m : list (string * A)) (k : string) (v : A).

Lemma keys_Map_update g m : keys (Map_update g m) = keys m.
Proof.
  unfold keys, Map_update. rewrite <- list_fmap_compose. by apply fmap_ext_elem.
Qed.

Lemma length_Map_update g m : length (Map_update g m) = length m.
Proof. apply length_fmap. Qed.

Lemma Map_get_update g k m : Map_get k (Map_update g m) = g k <$> Map_get k m.
Proof.
  induction m as [|[k' v'] m IH]; simpl; [done|].
  destruct (String.eqb_spec k k') as [->|Hne]; [done|]. apply IH.
Qed.

Lemma Map_set_present k v v' m :
  NoDup (keys m) → Map_get k m = Some v →
  Map_set k v' m = (λ kv, if String.eqb k kv.1 then (k, v') else kv) <$> m.
Proof.
  unfold keys. induction m as [|[k' v1] m IH]; simpl; [done|].
  rewrite NoDup_cons. intros [Hnin Hnd].
  destruct (String.eqb_spec k k') as [->|Hne].
  - intros _. f_equal. rewrite <- (list_fmap_id m) at 1. apply fmap_ext_elem.
    intros [k1 v2] Hin. simpl. destruct (String.eqb_spec k' k1) as [->|]; [|done].
    destruct Hnin. by apply (list_elem_of_fmap_2 fst) in Hin.
  - intros H. f_equal. by apply IH.
Qed.

(** A loop whose body overwrites the entry it visits. *)
Lemma for_of_keys_update (g : string → A → A) body ks m :
  (∀ k v c, Map_get k c = Some v → body k v c = Map_set k (g k v) c) →
  NoDup ks → NoDup (keys m) →
  for_of_keys id body ks m =
    (λ kv, if bool_decide (kv.1 ∈ ks) then (kv.1, g kv.1 kv.2) else kv) <$> m.
Proof.
  intros Hbody. revert m. induction ks as [|k ks IH]; intros m Hks Hm; simpl.
  - rewrite <- (list_fmap_id m) at 1. by apply fmap_ext_elem.
  - apply NoDup_cons in Hks as [Hk Hks].
    change (Map_get k (id m)) with (Map_get k m).
    destruct (Map_get k m) as [v|] eqn:E.
    + rewrite Hbody by done. rewrite IH; [|done|by apply NoDup_keys_Map_set].
      rewrite (Map_set_present k v) by done. rewrite <- list_fmap_compose.
      apply fmap_ext_elem. intros [k1 v1] Hin. simpl.
      destruct (String.eqb_spec k k1) as [<-|Hne]; simpl.
      * rewrite (Map_get_elem _ _ _ Hm Hin) in E. injection E as ->.
        rewrite bool_decide_eq_false_2 by done.
        rewrite bool_decide_eq_true_2; [done|constructor].
      * rewrite (bool_decide_ext (k1 ∈ k :: ks) (k1 ∈ ks)); [done|].
        rewrite elem_of_cons. intuition congruence.
    + rewrite IH by done. apply fmap_ext_elem. intros [k1 v1] Hin. simpl.
      assert (k1 ≠ k) as Hne.
      { intros ->. apply Map_get_None in E. destruct E.
        by apply (list_elem_of_fmap_2 fst) in Hin. }
      rewrite (bool_decide_ext (k1 ∈ k :: ks) (k1 ∈ ks)); [done|].
      rewrite elem_of_cons. intuition congruence.
Qed.

Lemma for_of_update (g : string → A → A) body m :
  (∀ k v c, Map_get k c = Some v → body k v c = Map_set k (g k v) c) →
  NoDup (keys m) →
  for_of id body m = Map_update g m.
Proof.
  intros Hbody Hm. unfold for_of, Map_update. change (id m) with m.
  rewrite (for_of_keys_update g) by done.
  apply fmap_ext_elem. intros kv Hin. simpl.
  rewrite bool_decide_eq_true_2; [done|]. by apply (list_elem_of_fmap_2 fst).
Qed.

(** A property of the state that every iteration keeps is kept by the loop. *)
Lemma for_of_keys_invariant {S} (P : S → Prop) (live : S → list (string * A)) body ks s :
  (∀ k v s', P s' → Map_get k (live s') = Some v → P (body k v s')) →
  P s → P (for_of_keys live body ks s).
Proof.
  intros Hbody. revert s. induction ks as [|k ks IH]; intros s Hs; simpl; [done|].
  apply IH. destruct (Map_get k (live s)) eqn:E; eauto.
Qed.
End loops.

Section forall_facts.
Context {A : Type}.
Implicit Types (m : list (string * A)) (P : string * A → Prop).

Lemma Forall_Map_delete P k m : Forall P m → Forall P (Map_delete k m).
Proof.
  rewrite Map_delete_filter, !Forall_forall. intros H x Hx.
  apply list_elem_of_filter in Hx as [_ Hx]. auto.
Qed.

Lemma Forall_Map_set P k v m : P (k, v) → Forall P m → Forall P (Map_set k v m).
Proof.
  intros Hkv. induction 1 as [|[k' v'] m HP Hm IH]; simpl.
  - by repeat constructor.
  - destruct (String.eqb k k'); by constructor.
Qed.

Lemma Forall_Map_update P (g : string → A → A) m :
  (∀ k v, P (k, v) → P (k, g k v)) → Forall P m → Forall P (Map_update g m).
Proof.
  intros Hg. unfold Map_update. induction 1 as [|[k v] m HP Hm IH]; simpl.
  - constructor.
  - constructor; [by apply Hg|done].
Qed.
End forall_facts.

(** ** What each method does to the entry map *)

Section effects.
Context {V : Type}.
Implicit Types (s : State V) (e : CacheEntry V) (opt : Option).

Lemma cache_update_lru_entries key s :
  NoDup (keys (cache s)) →
  cache (_update_lru_entries key s) = Map_update (lru_touch key) (cache s).
Proof.
  intros Hnd. unfold _update_lru_entries. simpl. apply for_of_update; [|done].
  intros k v c _. unfold lru_touch. by destruct (String.eqb key k).
Qed.

Lemma cache_update_lfu_entries key s :
  NoDup (keys (cache s)) →
  cache (_update_lfu_entries key s) = Map_update (lfu_touch key) (cache s).
Proof.
  intros Hnd. unfold _update_lfu_entries. simpl. apply for_of_update; [|done].
  intros k v c Hget. unfold lfu_touch. destruct (String.eqb key k); [done|].
  by rewrite Map_set_id.
Qed.

Lemma cache_update_fifo_entries now key s :
  NoDup (keys (cache s)) →
  cache (_update_fifo_entries now key s) = Map_update (fifo_touch now key) (cache s).
Proof.
  intros Hnd. unfold _update_fifo_entries. simpl. apply for_of_update; [|done].
  intros k v c Hget. unfold fifo_touch. destruct (String.eqb key k); [done|].
  by rewrite Map_set_id.
Qed.

Lemma cache_evict max victim s :
  cache (evict max victim s) = cache s
  ∨ ∃ k, victim = Some k ∧ truthy_string k = true ∧ max ≤ Map_size (cache s)
         ∧ cache (evict max victim s) = Map_delete k (cache s).
Proof.
  unfold evict. destruct victim as [k|]; [|by left].
  destruct (truthy_string k) eqn:Ht; [|by left]. simpl.
  destruct (Z.geb_spec (Map_size (cache s)) max); [|by left].
  right. exists k. repeat split; [done|lia].
Qed.

Lemma evict_other max victim s :
  timers (evict max victim s) = timers s
  ∧ rt_timeouts (evict max victim s) = rt_timeouts s
  ∧ rt_next (evict max victim s) = rt_next s.
Proof.
  unfold evict. destruct victim as [k|]; [|done].
  by destruct (truthy_string k && _).
Qed.

Lemma cache_set_bounded max type key now value s :
  NoDup (keys (cache s)) →
  cache (set (NonExpireOption max type) key now value s).2 =
    Map_set key (new_entry None value now)
      (aged type (cache (evict max (victim_of type s) s))).
Proof.
  intros Hnd. destruct type; simpl; [|done..].
  f_equal. apply for_of_update; [done|].
  destruct (cache_evict max (_get_lru_key s) s) as [->|(k & _ & _ & _ & ->)];
    [done|by apply NoDup_keys_Map_delete].
Qed.

Lemma set_bounded_other max type key now value s :
  timers (set (NonExpireOption max type) key now value s).2 = timers s
  ∧ rt_timeouts (set (NonExpireOption max type) key now value s).2 = rt_timeouts s
  ∧ rt_next (set (NonExpireOption max type) key now value s).2 = rt_next s.
Proof. destruct type; simpl; apply evict_other. Qed.

Lemma keys_aged type (c : list (string * CacheEntry V)) : keys (aged type c) = keys c.
Proof. destruct type; simpl; [apply keys_Map_update|done..]. Qed.

Lemma length_aged type (c : list (string * CacheEntry V)) : length (aged type c) = length c.
Proof. destruct type; simpl; [apply length_Map_update|done..]. Qed.

Lemma get_bounded max type now key s :
  NoDup (keys (cache s)) →
  get (NonExpireOption max type) now key s =
    match Map_get key (cache s) with
    | Some e => (Some (content e), with_cache (touched type now key (cache s)) s)
    | None => (None, s)
    end.
Proof.
  intros Hnd. unfold get. destruct (Map_get key (cache s)) as [e|]; [|done].
  simpl. f_equal. destruct type; simpl.
  - rewrite <- cache_update_lru_entries; done.
  - rewrite <- cache_update_lfu_entries; done.
  - rewrite <- cache_update_fifo_entries; done.
Qed.

Lemma keys_touched type now key (c : list (string * CacheEntry V)) :
  keys (touched type now key c) = keys c.
Proof. destruct type; apply keys_Map_update. Qed.
End effects.

(** ** The invariant of the reachable states *)

Section invariant.
Context {V : Type}.
Implicit Types (s : State V) (e : CacheEntry V) (opt : Option).

Lemma Inv_initial opt : Inv opt (initial_state (V:=V)).
Proof.
  split; [constructor|]. split; [constructor|].
  destruct opt; simpl; [|done].
  repeat split; try done; try (by intros [? ?]); try (by intros ?%elem_of_nil).
Qed.

Lemma timers_sync_positive s k id :
  timers_sync s → timers s !! k = Some id → truthy_number id = true.
Proof.
  intros (Hb & _ & Hd & _) H. apply Hb, Hd in H.
  unfold truthy_number. destruct (Z.eqb_spec id 0); [lia|done].
Qed.

(** Dropping an entry together with its timer keeps the two tables in step. *)
Lemma timers_sync_drop key s :
  timers_sync s →
  timers_sync (clear_timer key (with_cache (Map_delete key (cache s)) s)).
Proof.
  intros Hs. pose proof Hs as (Hb & Hc & Hd & Hn).
  unfold clear_timer. simpl. destruct (timers s !! key) as [id|] eqn:E.
  - rewrite (timers_sync_positive s key id) by done. simpl.
    split; [|split; [|split]]; simpl; [| | |done].
    + intros k i. destruct (decide (k = key)) as [->|Hne].
      * rewrite lookup_delete_eq. split; [done|].
        intros [Hi H]%lookup_delete_Some. apply Hb in H. congruence.
      * rewrite lookup_delete_ne by done. rewrite lookup_delete_Some, <- Hb.
        split; [|tauto]. intros H. split; [|done].
        intros <-. apply Hb in H, E. congruence.
    + intros k. rewrite keys_Map_delete, list_elem_of_filter, <- Hc.
      destruct (decide (k = key)) as [->|Hne].
      * rewrite lookup_delete_eq. split; [by intros [? ?]|tauto].
      * rewrite lookup_delete_ne by done. tauto.
    + intros i k [_ H]%lookup_delete_Some. by apply Hd in H.
  - assert (key ∉ keys (cache s)) as Hnin.
    { intros Hin%Hc. rewrite E in Hin. by destruct Hin. }
    rewrite Map_delete_absent by (by apply Map_get_None).
    by destruct s.
Qed.

Lemma Inv_expire_entry maxAge key s :
  Inv (ExpireOption maxAge) s → Inv (ExpireOption maxAge) (expire_entry key s).
Proof.
  intros (Hnd & Hall & Hsync). pose proof (timers_sync_drop key s Hsync) as Hsync'.
  unfold expire_entry, clear_timer in *. simpl in *.
  destruct (timers s !! key) as [id|]; [destruct (truthy_number id)|];
    (split; [by apply NoDup_keys_Map_delete|]; split; [by apply Forall_Map_delete|done]).
Qed.

Lemma Inv_remove opt key s : Inv opt s → Inv opt (remove opt key s).
Proof.
  destruct opt as [maxAge|max type]; intros (Hnd & Hall & Hsync).
  - pose proof (timers_sync_drop key s Hsync) as Hsync'.
    unfold remove, clear_timer in *. simpl in *.
    destruct (timers s !! key) as [id|]; [destruct (truthy_number id)|];
      (split; [by apply NoDup_keys_Map_delete|];
       split; [by apply Forall_Map_delete|done]).
  - split; [by apply NoDup_keys_Map_delete|]. split; [by apply Forall_Map_delete|done].
Qed.

Lemma Inv_timeout_fires opt timerId s : Inv opt s → Inv opt (timeout_fires timerId s).
Proof.
  intros (Hnd & Hall & Hsync). unfold timeout_fires.
  destruct (rt_timeouts s !! timerId) as [key|] eqn:E; [|done].
  destruct opt as [maxAge|max type]; simpl in *.
  - pose proof Hsync as (Hb & _). apply Hb in E.
    pose proof (timers_sync_drop key s Hsync) as Hsync'.
    unfold clear_timer in Hsync'. simpl in Hsync'. rewrite E in Hsync'.
    rewrite (timers_sync_positive s key timerId) in Hsync' by done.
    split; [by apply NoDup_keys_Map_delete|]. split; [by apply Forall_Map_delete|done].
  - destruct Hsync as [_ Hrt]. rewrite Hrt in E. by rewrite lookup_empty in E.
Qed.
End invariant.

Section invariant_steps.
Context {V : Type}.
Implicit Types (s : State V) (e : CacheEntry V) (opt : Option).

Lemma fresh_uuid_spec key s :
  fresh_uuid key s = true ↔ truthy_string key = true ∧ Map_get key (cache s) = None.
Proof.
  unfold fresh_uuid. rewrite andb_true_iff, negb_true_iff, bool_decide_eq_false.
  destruct (Map_get key (cache s)); split; intros [? H]; split; try done.
  destruct H. eauto.
Qed.

Lemma Forall_aged opt type (c : list (string * CacheEntry V)) :
  Forall (entry_ok opt) c → Forall (entry_ok opt) (aged type c).
Proof. destruct type; simpl; [|done..]. apply Forall_Map_update. by intros k v. Qed.

Lemma Forall_touched opt type now key (c : list (string * CacheEntry V)) :
  Forall (entry_ok opt) c → Forall (entry_ok opt) (touched type now key c).
Proof.
  destruct type; simpl; apply Forall_Map_update; intros k v;
    unfold lru_touch, lfu_touch, fifo_touch; by destruct (String.eqb key k).
Qed.

Lemma Inv_set opt key now value s :
  Inv opt s → fresh_uuid key s = true → Inv opt (set opt key now value s).2.
Proof.
  intros (Hnd & Hall & Hsync) [Htruthy Hfresh]%fresh_uuid_spec.
  destruct opt as [maxAge|max type].
  - simpl in *. split; [by apply NoDup_keys_Map_set|].
    split; [apply Forall_Map_set; [by split; eauto|done]|].
    destruct Hsync as (Hb & Hc & Hd & Hn).
    assert (timers s !! key = None) as Hnone.
    { destruct (timers s !! key) eqn:E; [|done].
      apply Map_get_None in Hfresh. destruct Hfresh. apply Hc. eauto. }
    split; [|split; [|split]]; simpl; [| | |lia].
    + intros k i. destruct (decide (k = key)) as [->|Hne].
      * rewrite lookup_insert_eq. destruct (decide (i = rt_next s)) as [->|Hi].
        -- by rewrite lookup_insert_eq.
        -- rewrite lookup_insert_ne by done. rewrite <- Hb, Hnone.
           split; [congruence|done].
      * rewrite lookup_insert_ne by done.
        destruct (decide (i = rt_next s)) as [->|Hi].
        -- rewrite lookup_insert_eq. split; [|congruence].
           intros H%Hb%Hd. lia.
        -- rewrite lookup_insert_ne by done. apply Hb.
    + intros k. rewrite Map_set_fresh by done. unfold keys.
      rewrite fmap_app, elem_of_app. simpl. rewrite list_elem_of_singleton.
      destruct (decide (k = key)) as [->|Hne].
      * rewrite lookup_insert_eq. split; [by right|eauto].
      * rewrite lookup_insert_ne by done. rewrite Hc. unfold keys. tauto.
    + intros i k. destruct (decide (i = rt_next s)) as [->|Hi].
      * intros _. lia.
      * rewrite lookup_insert_ne by done. intros H%Hd. lia.
  - destruct (set_bounded_other max type key now value s) as (Ht & Hr & _).
    assert (NoDup (keys (cache (evict max (victim_of type s) s)))
            ∧ Forall (entry_ok (NonExpireOption max type))
                (cache (evict max (victim_of type s) s))) as [Hnd' Hall'].
    { destruct (cache_evict max (victim_of type s) s) as [->|(k & _ & _ & _ & ->)];
        [done|]. split; [by apply NoDup_keys_Map_delete|by apply Forall_Map_delete]. }
    split; [|split].
    + rewrite cache_set_bounded by done.
      apply NoDup_keys_Map_set. by rewrite keys_aged.
    + rewrite cache_set_bounded by done.
      apply Forall_Map_set; [done|]. by apply Forall_aged.
    + simpl in *. by rewrite Ht, Hr.
Qed.

Lemma Inv_get opt now key s : Inv opt s → Inv opt (get opt now key s).2.
Proof.
  intros HI. pose proof HI as (Hnd & Hall & Hsync).
  destruct opt as [maxAge|max type].
  - unfold get. destruct (Map_get key (cache s)) as [e|]; [|done].
    destruct (is_expired _ now e); [|done]. by apply Inv_expire_entry.
  - rewrite get_bounded by done.
    destruct (Map_get key (cache s)) as [e|]; [|done].
    unfold Inv. cbn [snd with_cache cache].
    split; [by rewrite keys_touched|]. split; [by apply Forall_touched|done].
Qed.

Lemma Inv_has opt now key s : Inv opt s → Inv opt (has opt now key s).2.
Proof.
  intros HI. unfold has. destruct (Map_get key (cache s)) as [e|]; [|done].
  destruct opt as [maxAge|max type]; simpl.
  - destruct (expires e) as [t|]; [|done].
    destruct (now >? t); [|done]. by apply Inv_expire_entry.
  - done.
Qed.

Lemma Inv_size opt now s : Inv opt s → Inv opt (size opt now s).2.
Proof.
  intros HI. destruct opt as [maxAge|max type]; [|done].
  unfold size, for_of. cbn [snd].
  apply (for_of_keys_invariant (Inv (ExpireOption maxAge))); [|done].
  intros k v s' Hs' _. destruct (is_expired (ExpireOption maxAge) now v); [|done].
  by apply Inv_expire_entry.
Qed.

Lemma foldr_clearTimeout ids s :
  cache (foldr clearTimeout s ids) = cache s
  ∧ timers (foldr clearTimeout s ids) = timers s
  ∧ rt_next (foldr clearTimeout s ids) = rt_next s
  ∧ ∀ i, rt_timeouts (foldr clearTimeout s ids) !! i =
         if bool_decide (i ∈ ids) then None else rt_timeouts s !! i.
Proof.
  induction ids as [|id ids (Hc & Ht & Hn & Hr)]; simpl; [done|].
  repeat split; try done. intros i.
  destruct (decide (i = id)) as [->|Hne].
  - rewrite lookup_delete_eq. rewrite bool_decide_eq_true_2; [done|constructor].
  - rewrite lookup_delete_ne by done. rewrite Hr.
    rewrite (bool_decide_ext (i ∈ id :: ids) (i ∈ ids)); [done|].
    rewrite elem_of_cons. tauto.
Qed.

Lemma Inv_clear opt s : Inv opt s → Inv opt (clear opt s).
Proof.
  intros (Hnd & Hall & Hsync). unfold clear.
  split; [constructor|]. split; [constructor|].
  destruct opt as [maxAge|max type]; simpl in *; [|done].
  destruct Hsync as (Hb & Hc & Hd & Hn).
  destruct (foldr_clearTimeout (map_to_list (timers s)).*2 s) as (_ & _ & Hn' & Hr).
  assert (∀ i, rt_timeouts (foldr clearTimeout s (map_to_list (timers s)).*2) !! i = None)
    as Hnone.
  { intros i. rewrite Hr. case_bool_decide as Hi; [done|].
    destruct (rt_timeouts s !! i) as [k|] eqn:E; [|done].
    destruct Hi. apply Hb in E.
    apply (list_elem_of_fmap_2' snd _ (k, i)); [|done]. by apply elem_of_map_to_list. }
  split; [|split; [|split]]; simpl.
  - intros k i. rewrite lookup_empty, Hnone. done.
  - intros k. rewrite lookup_empty. split; [by intros [? ?]|by intros ?%elem_of_nil].
  - intros i k. by rewrite Hnone.
  - by rewrite Hn'.
Qed.

Lemma Inv_exec opt op s : Inv opt s → env_ok op s = true → Inv opt (exec opt op s).
Proof.
  intros HI Henv. destruct op; simpl.
  - by apply Inv_set.
  - by apply Inv_get.
  - by apply Inv_has.
  - by apply Inv_remove.
  - by apply Inv_clear.
  - by apply Inv_size.
  - by apply Inv_timeout_fires.
Qed.

Lemma Inv_run opt ops s :
  Inv opt s → trace_ok opt ops s = true → Inv opt (run opt ops s).
Proof.
  revert s. induction ops as [|op ops IH]; intros s HI Hok; simpl in *; [done|].
  apply andb_true_iff in Hok as [Henv Hok]. apply IH; [|done]. by apply Inv_exec.
Qed.

Lemma Inv_reachable opt s : reachable opt s → Inv opt s.
Proof. intros (ops & Hok & ->). apply Inv_run; [apply Inv_initial|done]. Qed.
End invariant_steps.

(** ** Removal *)

Section removal.
Context {V : Type}.
Implicit Types (s : State V) (e : CacheEntry V) (opt : Option).

Lemma cache_clear_timer key s : cache (clear_timer key s) = cache s.
Proof.
  unfold clear_timer. destruct (timers s !! key) as [id|]; [|done].
  by destruct (truthy_number id).
Qed.

Lemma cache_remove opt key s : cache (remove opt key s) = Map_delete key (cache s).
Proof. destruct opt; simpl; [|done]. by rewrite cache_clear_timer. Qed.

Lemma cache_expire_entry key s : cache (expire_entry key s) = Map_delete key (cache s).
Proof. unfold expire_entry. by rewrite cache_clear_timer. Qed.

(** C9. For every policy and every key [key], [remove key] deletes the
    entry of [key] and nothing else: the entry map afterwards is the old
    one without the entries of [key], in the same order; [key] is absent
    afterwards; every other key maps to the very same entry as before
    (content, [index], [frequency], [insertedAt], [expires]); and the call
    changes nothing when [key] was absent. In particular, under LRU the
    [index] of a surviving entry is what it was: the ranks are not
    re-normalized. *)
Theorem remove_frame opt key s :
  cache (remove opt key s) = filter (λ kv, kv.1 ≠ key) (cache s)
  ∧ Map_get key (cache (remove opt key s)) = None
  ∧ (∀ k', k' ≠ key → Map_get k' (cache (remove opt key s)) = Map_get k' (cache s))
  ∧ (Map_get key (cache s) = None → cache (remove opt key s) = cache s)
  ∧ (∀ max k' e, k' ≠ key → Map_get k' (cache s) = Some e →
       index <$> Map_get k' (cache (remove (NonExpireOption max LRU) key s))
       = Some (index e)).
Proof.
  rewrite !cache_remove. split; [apply Map_delete_filter|].
  split; [apply Map_get_delete_eq|]. split; [intros k' Hne; by apply Map_get_delete_ne|].
  split; [apply Map_delete_absent|].
  intros max k' e Hne He. rewrite cache_remove, Map_get_delete_ne by done.
  by rewrite He.
Qed.
End removal.

(** ** Lazy expiry under EXPIRE *)

Section expiry.
Context {V : Type}.
Implicit Types (s : State V) (e : CacheEntry V) (opt : Option).

Lemma is_expired_overdue maxAge now e :
  is_expired (ExpireOption maxAge) now e = overdue now e.
Proof. done. Qed.

Lemma is_expired_bounded max type now e :
  is_expired (NonExpireOption max type) now e = false.
Proof. done. Qed.

(** In a state where the tables are in step, a key without entry has no
    timer and no pending timeout. *)
Lemma timers_sync_absent s key :
  timers_sync s → Map_get key (cache s) = None →
  timers s !! key = None ∧ ∀ id, rt_timeouts s !! id ≠ Some key.
Proof.
  intros (Hb & Hc & _) Hnone%Map_get_None.
  assert (timers s !! key = None) as Ht.
  { destruct (timers s !! key) eqn:E; [|done]. destruct Hnone. apply Hc. eauto. }
  split; [done|]. intros id Hid. apply Hb in Hid. congruence.
Qed.

Lemma expire_entry_gone maxAge key s :
  Inv (ExpireOption maxAge) s →
  Map_get key (cache (expire_entry key s)) = None
  ∧ timers (expire_entry key s) !! key = None
  ∧ ∀ id, rt_timeouts (expire_entry key s) !! id ≠ Some key.
Proof.
  intros HI. apply (Inv_expire_entry maxAge key) in HI as (_ & _ & Hsync).
  assert (Map_get key (cache (expire_entry key s)) = None) as Hnone.
  { rewrite cache_expire_entry. apply Map_get_delete_eq. }
  split; [done|]. by apply timers_sync_absent.
Qed.

(** C5. Under EXPIRE, in every reachable state: when the entry of [key]
    has a deadline [t] with [now > t], [get] returns [undefined] and [has]
    returns [false], and after either call the entry is gone, [timers]
    has no handle for [key] and no pending timeout targets [key] any more
    (whatever the handle was and whether or not it had fired). Hence a
    [get] that returns a content returns the content of an entry whose
    deadline has not passed. *)
Theorem expire_lazy_deletion maxAge s :
  reachable (ExpireOption maxAge) s →
  (∀ key e t now,
      Map_get key (cache s) = Some e → expires e = Some t → now > t →
      (get (ExpireOption maxAge) now key s).1 = None
      ∧ (has (ExpireOption maxAge) now key s).1 = false
      ∧ (has (ExpireOption maxAge) now key s).2 = (get (ExpireOption maxAge) now key s).2
      ∧ Map_get key (cache (get (ExpireOption maxAge) now key s).2) = None
      ∧ timers (get (ExpireOption maxAge) now key s).2 !! key = None
      ∧ ∀ id, rt_timeouts (get (ExpireOption maxAge) now key s).2 !! id ≠ Some key)
  ∧ (∀ key now v,
      (get (ExpireOption maxAge) now key s).1 = Some v →
      ∃ e t, Map_get key (cache s) = Some e ∧ v = content e
             ∧ expires e = Some t ∧ now ≤ t).
Proof.
  intros HI%Inv_reachable. split.
  - intros key e t now He Ht Hnow. unfold get, has. rewrite He.
    rewrite is_expired_overdue. unfold overdue. rewrite Ht.
    destruct (Z.gtb_spec now t); [|lia]. simpl.
    repeat split; try done; by apply (expire_entry_gone maxAge key s).
  - intros key now v. unfold get.
    destruct (Map_get key (cache s)) as [e|] eqn:He; [|done].
    rewrite is_expired_overdue. unfold overdue.
    destruct HI as (_ & Hall & _).
    apply Map_get_Some_elem in He as Hin.
    rewrite Forall_forall in Hall. destruct (Hall _ Hin) as [_ [t Ht]].
    simpl in Ht. rewrite Ht. destruct (Z.gtb_spec now t); [done|].
    intros [= <-]. exists e, t. repeat split; [done|lia].
Qed.
End expiry.

(** ** [size] *)

Section size_facts.
Context {V : Type}.
Implicit Types (s : State V) (e : CacheEntry V) (opt : Option).

Lemma sweep_cons opt now k ks s :
  sweep opt now (k :: ks) s =
    sweep opt now ks
      (match Map_get k (cache s) with
       | Some e => if is_expired opt now e then expire_entry k s else s
       | None => s
       end).
Proof. done. Qed.

Lemma cache_sweep maxAge now ks s :
  NoDup (keys (cache s)) →
  cache (sweep (ExpireOption maxAge) now ks s) =
    filter (λ kv, ¬ (kv.1 ∈ ks ∧ overdue now kv.2 = true)) (cache s).
Proof.
  revert s. induction ks as [|k ks IH]; intros s Hnd.
  - symmetry. apply filter_all. intros kv _ [Hin _]. by apply elem_of_nil in Hin.
  - rewrite sweep_cons.
    destruct (Map_get k (cache s)) as [e|] eqn:He.
    + rewrite is_expired_overdue. destruct (overdue now e) eqn:Ho.
      * rewrite IH by (rewrite cache_expire_entry; by apply NoDup_keys_Map_delete).
        rewrite cache_expire_entry, Map_delete_filter, list_filter_filter.
        apply filter_ext_elem. intros [k1 e1] Hin. simpl.
        rewrite elem_of_cons. destruct (decide (k1 = k)) as [->|Hne]; [|tauto].
        rewrite (Map_get_elem _ _ _ Hnd Hin) in He. injection He as ->. tauto.
      * rewrite IH by done. apply filter_ext_elem. intros [k1 e1] Hin. simpl.
        rewrite elem_of_cons. destruct (decide (k1 = k)) as [->|Hne]; [|tauto].
        rewrite (Map_get_elem _ _ _ Hnd Hin) in He. injection He as ->.
        rewrite Ho. split; intros _; intros [_ ?]; done.
    + rewrite IH by done. apply filter_ext_elem. intros [k1 e1] Hin. simpl.
      rewrite elem_of_cons. destruct (decide (k1 = k)) as [->|Hne]; [|tauto].
      apply Map_get_None in He. destruct He.
      by apply (list_elem_of_fmap_2 fst) in Hin.
Qed.

Lemma cache_size_expire maxAge now s :
  NoDup (keys (cache s)) →
  cache (size (ExpireOption maxAge) now s).2 =
    filter (λ kv, overdue now kv.2 = false) (cache s).
Proof.
  intros Hnd. unfold size, for_of. cbn [snd].
  fold (sweep (ExpireOption maxAge) now (keys (cache s)) s).
  rewrite cache_sweep by done. apply filter_ext_elem. intros kv Hin.
  apply (list_elem_of_fmap_2 fst) in Hin. fold (keys (cache s)) in Hin.
  simpl. destruct (overdue now kv.2).
  - split; [intros H; destruct H; by split|done].
  - split; [done|]. by intros _ [_ ?].
Qed.

(** C8. Under EXPIRE, in every reachable state, [size()] leaves exactly
    the entries whose deadline has not passed, in their order, and returns
    their number: no entry with a passed deadline is counted, and every
    entry it drops has its timer handle removed and its timeout cancelled.
    Under LRU, LFU and FIFO, in any state, [size()] returns the number of
    entries of the map and changes nothing. *)
Theorem size_sweeps_expired :
  (∀ maxAge now (s : State V),
      reachable (ExpireOption maxAge) s →
      cache (size (ExpireOption maxAge) now s).2 =
        filter (λ kv, overdue now kv.2 = false) (cache s)
      ∧ (size (ExpireOption maxAge) now s).1 =
          Map_size (filter (λ kv, overdue now kv.2 = false) (cache s))
      ∧ Forall (λ kv, ∃ t, expires kv.2 = Some t ∧ now ≤ t)
          (cache (size (ExpireOption maxAge) now s).2)
      ∧ (∀ k e, Map_get k (cache s) = Some e → overdue now e = true →
           Map_get k (cache (size (ExpireOption maxAge) now s).2) = None
           ∧ timers (size (ExpireOption maxAge) now s).2 !! k = None
           ∧ ∀ id, rt_timeouts (size (ExpireOption maxAge) now s).2 !! id ≠ Some k))
  ∧ (∀ max type now (s : State V),
      size (NonExpireOption max type) now s = (Map_size (cache s), s)).
Proof.
  split; [|done]. intros maxAge now s HI%Inv_reachable.
  pose proof (Inv_size _ now _ HI) as (_ & _ & Hsync').
  destruct HI as (Hnd & Hall & Hsync).
  pose proof (cache_size_expire maxAge now s Hnd) as Hc.
  split; [done|]. split; [by rewrite <- Hc|]. split.
  - rewrite Hc. apply Forall_forall. intros kv [Ho Hin]%list_elem_of_filter.
    rewrite Forall_forall in Hall. destruct (Hall _ Hin) as [_ [t Ht]].
    exists t. split; [done|]. unfold overdue in Ho. rewrite Ht in Ho.
    destruct (Z.gtb_spec now t); [done|lia].
  - intros k e He Ho.
    assert (Map_get k (cache (size (ExpireOption maxAge) now s).2) = None) as Hnone.
    { rewrite Hc. apply Map_get_None. unfold keys.
      intros ([k1 e1] & -> & [Ho1 Hin]%list_elem_of_filter)%list_elem_of_fmap.
      simpl in *. rewrite (Map_get_elem _ _ _ Hnd Hin) in He. congruence. }
    split; [done|]. by apply timers_sync_absent.
Qed.
End size_facts.

(** ** No expiry under the bounded policies *)

Section no_expiry.
Context {V : Type}.
Implicit Types (s : State V) (e : CacheEntry V) (opt : Option).

(** C10. Under LRU, LFU and FIFO, [set] stores the new entry with
    [expires: false], and in every reachable state every entry has
    [expires: false]; the expiry test of [get], [has] and [size] is false
    for every entry, and none of the three deletes an entry: [get] keeps
    the keys of the map (in their order), [has] and [size] keep the whole
    state. *)
Theorem bounded_entries_never_expire max type s :
  reachable (NonExpireOption max type) s →
  (∀ key now value,
      Map_get key (cache (set (NonExpireOption max type) key now value s).2)
      = Some (new_entry None value now))
  ∧ Forall (λ kv, expires kv.2 = None) (cache s)
  ∧ (∀ now e, is_expired (NonExpireOption max type) now e = false)
  ∧ (∀ now key, keys (cache (get (NonExpireOption max type) now key s).2)
                = keys (cache s))
  ∧ (∀ now key, (has (NonExpireOption max type) now key s).2 = s)
  ∧ (∀ now, (size (NonExpireOption max type) now s).2 = s).
Proof.
  intros (Hnd & Hall & _)%Inv_reachable.
  split; [|split; [|split; [|split; [|split]]]].
  - intros key now value. rewrite cache_set_bounded by done. apply Map_get_set_eq.
  - eapply Forall_impl; [exact Hall|]. by intros kv [_ ?].
  - done.
  - intros now key. rewrite get_bounded by done.
    destruct (Map_get key (cache s)); [|done]. apply keys_touched.
  - intros now key. unfold has. by destruct (Map_get key (cache s)).
  - done.
Qed.
End no_expiry.

(** ** Victim selection by minimum (LFU and FIFO) *)

Section min_victim.
Context {A : Type}.
Implicit Types (m : list (string * A)) (f : A → Z).

Lemma Map_delete_middle k v (pre post : list (string * A)) :
  NoDup (keys (pre ++ (k, v) :: post)) →
  Map_delete k (pre ++ (k, v) :: post) = pre ++ post.
Proof.
  unfold keys. rewrite fmap_app, fmap_cons. simpl.
  intros (Hpre & Hdisj & [Hpost _]%NoDup_cons)%NoDup_app.
  rewrite Map_delete_filter, filter_app.
  rewrite filter_cons_False by (simpl; by intros []).
  rewrite !filter_all; [done| |].
  - intros [k1 v1] Hin; simpl; intros ->. destruct Hpost.
    by apply (list_elem_of_fmap_2 fst) in Hin.
  - intros [k1 v1] Hin; simpl; intros ->. apply (list_elem_of_fmap_2 fst) in Hin.
    apply (Hdisj _ Hin). constructor.
Qed.

(** The first entry that attains the minimum of [f] is found. *)
Lemma Map_find_key_min f m :
  m ≠ [] →
  ∃ pre k v post,
    Map_find_key (λ x, strict_eq (f x) (Math_min ((λ kv, f kv.2) <$> m))) m = Some k
    ∧ m = pre ++ (k, v) :: post
    ∧ Forall (λ kv, f v ≤ f kv.2) m
    ∧ Forall (λ kv, f v < f kv.2) pre.
Proof.
  intros Hne. destruct m as [|kv0 m0]; [done|]. clear Hne.
  destruct (Math_min_spec (f kv0.2) ((λ kv, f kv.2) <$> m0)) as (z & Hz & Hin & Hle).
  change (f kv0.2 :: ((λ kv, f kv.2) <$> m0)) with ((λ kv, f kv.2) <$> kv0 :: m0) in *.
  rewrite Hz. set (m := kv0 :: m0) in *. clearbody m. clear kv0 m0 Hz.
  rewrite Forall_fmap in Hle.
  destruct (Map_find_key (λ x, strict_eq (f x) (Finite z)) m) as [k|] eqn:E.
  - apply Map_find_key_Some in E as (pre & v & post & -> & Hv & Hpre). simpl in Hv.
    apply Z.eqb_eq in Hv. exists pre, k, v, post. split; [done|]. split; [done|].
    split.
    + eapply Forall_impl; [exact Hle|]. intros kv H. simpl in H. lia.
    + apply Forall_app in Hle as [Hle _].
      rewrite Forall_forall in Hle, Hpre. apply Forall_forall. intros kv Hkv.
      specialize (Hle _ Hkv). specialize (Hpre _ Hkv). simpl in *.
      apply Z.eqb_neq in Hpre. lia.
  - apply Map_find_key_None in E. apply list_elem_of_fmap in Hin as (kv & -> & Hkv).
    rewrite Forall_forall in E. specialize (E _ Hkv). simpl in E.
    by rewrite Z.eqb_refl in E.
Qed.
End min_victim.

Section eviction.
Context {V : Type}.
Implicit Types (s : State V) (e : CacheEntry V) (opt : Option).

Lemma set_at_capacity_evicts_min max type key now value s :
  type ≠ LRU →
  Inv (NonExpireOption max type) s →
  0 < max → max ≤ Map_size (cache s) → fresh_uuid key s = true →
  ∃ pre victim ve post,
    cache s = pre ++ (victim, ve) :: post
    ∧ Forall (λ kv, eviction_key type ve ≤ eviction_key type kv.2) (cache s)
    ∧ Forall (λ kv, eviction_key type ve < eviction_key type kv.2) pre
    ∧ cache (set (NonExpireOption max type) key now value s).2 =
        pre ++ post ++ [(key, new_entry None value now)].
Proof.
  intros Htype (Hnd & Hall & _) Hmax Hfull [_ Hfresh]%fresh_uuid_spec.
  assert (cache s ≠ []) as Hne.
  { intros Hnil. rewrite Hnil in Hfull. unfold Map_size in Hfull. simpl in Hfull. lia. }
  assert (∃ pre victim ve post,
    victim_of type s = Some victim ∧ cache s = pre ++ (victim, ve) :: post
    ∧ Forall (λ kv, eviction_key type ve ≤ eviction_key type kv.2) (cache s)
    ∧ Forall (λ kv, eviction_key type ve < eviction_key type kv.2) pre)
    as (pre & victim & ve & post & Hvictim & Hsplit & Hmin & Hfirst).
  { destruct type; [done| |].
    - destruct (Map_find_key_min frequency (cache s) Hne)
        as (pre & k & v & post & ? & ? & ? & ?). by exists pre, k, v, post.
    - destruct (Map_find_key_min insertedAt (cache s) Hne)
        as (pre & k & v & post & ? & ? & ? & ?). by exists pre, k, v, post. }
  exists pre, victim, ve, post. split; [done|]. split; [done|]. split; [done|].
  rewrite cache_set_bounded by done. rewrite Hvictim.
  assert (truthy_string victim = true) as Htruthy.
  { rewrite Forall_forall in Hall. apply (Hall (victim, ve)).
    rewrite Hsplit. apply elem_of_app. right. constructor. }
  assert (cache (evict max (Some victim) s) = pre ++ post) as ->.
  { unfold evict. rewrite Htruthy. simpl.
    destruct (Z.geb_spec (Map_size (cache s)) max); [|lia]. simpl.
    rewrite Hsplit. apply Map_delete_middle. by rewrite <- Hsplit. }
  assert (aged type (pre ++ post) = pre ++ post) as -> by (by destruct type).
  rewrite Map_set_fresh; [by rewrite app_assoc|].
  apply Map_get_None. apply Map_get_None in Hfresh. rewrite Hsplit in Hfresh.
  unfold keys in *. rewrite fmap_app, elem_of_app in *.
  rewrite fmap_cons, elem_of_cons in Hfresh. tauto.
Qed.

(** What a [get] of a live key does to the entries under LFU and FIFO. *)
Lemma get_touch_one max type now key e s :
  type ≠ LRU →
  NoDup (keys (cache s)) → Map_get key (cache s) = Some e →
  (get (NonExpireOption max type) now key s).1 = Some (content e)
  ∧ Map_get key (cache (get (NonExpireOption max type) now key s).2)
    = Some (match type with
            | LFU => with_frequency (frequency e + 1) e
            | _ => with_insertedAt now e
            end)
  ∧ (∀ k', k' ≠ key →
       Map_get k' (cache (get (NonExpireOption max type) now key s).2)
       = Map_get k' (cache s))
  ∧ keys (cache (get (NonExpireOption max type) now key s).2) = keys (cache s)
  ∧ length (cache (get (NonExpireOption max type) now key s).2) = length (cache s).
Proof.
  intros Htype Hnd He. rewrite get_bounded by done. rewrite He.
  cbn [fst snd with_cache cache].
  split; [done|]. destruct type; [done| |]; simpl.
  - rewrite keys_Map_update, length_Map_update. repeat split; try done.
    + rewrite Map_get_update, He. simpl. unfold lfu_touch. by rewrite String.eqb_refl.
    + intros k' Hne. rewrite Map_get_update. unfold lfu_touch.
      apply not_eq_sym, String.eqb_neq in Hne. rewrite Hne.
      by destruct (Map_get k' (cache s)).
  - rewrite keys_Map_update, length_Map_update. repeat split; try done.
    + rewrite Map_get_update, He. simpl. unfold fifo_touch. by rewrite String.eqb_refl.
    + intros k' Hne. rewrite Map_get_update. unfold fifo_touch.
      apply not_eq_sym, String.eqb_neq in Hne. rewrite Hne.
      by destruct (Map_get k' (cache s)).
Qed.

(** A [set] under LFU or FIFO leaves the surviving old entries as they were. *)
Lemma set_keeps_old_entries max type key now value k' e' s :
  type ≠ LRU → NoDup (keys (cache s)) → k' ≠ key →
  Map_get k' (cache (set (NonExpireOption max type) key now value s).2) = Some e' →
  Map_get k' (cache s) = Some e'.
Proof.
  intros Htype Hnd Hne. rewrite cache_set_bounded by done.
  rewrite Map_get_set_ne by done.
  assert (aged type (cache (evict max (victim_of type s) s))
          = cache (evict max (victim_of type s) s)) as -> by (by destruct type).
  destruct (cache_evict max (victim_of type s) s) as [->|(k & _ & _ & _ & ->)]; [done|].
  destruct (decide (k = k')) as [->|Hk].
  - by rewrite Map_get_delete_eq.
  - by rewrite Map_get_delete_ne.
Qed.

Lemma length_Map_delete_le {A} k (m : list (string * A)) :
  (length (Map_delete k m) ≤ length m)%nat.
Proof. rewrite Map_delete_filter. apply length_filter. Qed.

Lemma length_Map_set_le {A} k v (m : list (string * A)) :
  (length (Map_set k v m) ≤ S (length m))%nat.
Proof.
  induction m as [|[k' v'] m IH]; simpl; [lia|].
  destruct (String.eqb k k'); simpl; lia.
Qed.

(** The part of C2 that holds: under LFU and FIFO with a positive capacity
    a step from a state within the bound stays within the bound, so every
    reachable state holds at most [max] entries. *)
Lemma size_bound_exec max type op s :
  type ≠ LRU → 0 < max →
  Inv (NonExpireOption max type) s → env_ok op s = true →
  Map_size (cache s) ≤ max →
  Map_size (cache (exec (NonExpireOption max type) op s)) ≤ max.
Proof.
  intros Htype Hmax HI Henv Hbound. pose proof HI as (Hnd & _ & _ & Hrt).
  destruct op as [key now value|now key|now key|key| |now|timerId]; cbn [exec].
  - destruct (Z.le_gt_cases max (Map_size (cache s))) as [Hfull|Hroom].
    + destruct (set_at_capacity_evicts_min max type key now value s)
        as (pre & victim & ve & post & Hc & _ & _ & ->); try done.
      rewrite Hc in Hbound. unfold Map_size in *.
      rewrite !length_app in *. simpl in *. lia.
    + rewrite cache_set_bounded by done. unfold Map_size in *.
      pose proof (length_Map_set_le key (new_entry None value now)
                    (aged type (cache (evict max (victim_of type s) s)))) as Hset.
      rewrite length_aged in Hset.
      destruct (cache_evict max (victim_of type s) s) as [Heq|(k & _ & _ & _ & Heq)];
        rewrite Heq in Hset |- *; [lia|].
      pose proof (length_Map_delete_le k (cache s)). lia.
  - rewrite get_bounded by done. destruct (Map_get key (cache s)); [|done].
    cbn [snd with_cache cache]. unfold Map_size in *.
    destruct type; simpl; rewrite length_Map_update; done.
  - unfold has. by destruct (Map_get key (cache s)).
  - rewrite cache_remove. unfold Map_size in *.
    pose proof (length_Map_delete_le key (cache s)). lia.
  - simpl. unfold Map_size. simpl. lia.
  - done.
  - unfold timeout_fires. simpl in Hrt. rewrite Hrt, lookup_empty. done.
Qed.

Lemma bounded_size_lfu_fifo max type s :
  type ≠ LRU → 0 < max → reachable (NonExpireOption max type) s →
  Map_size (cache s) ≤ max.
Proof.
  intros Htype Hmax (ops & Hok & ->).
  assert (∀ s0 : State V,
            Inv (NonExpireOption max type) s0 → Map_size (cache s0) ≤ max →
            trace_ok (NonExpireOption max type) ops s0 = true →
            Map_size (cache (run (NonExpireOption max type) ops s0)) ≤ max) as Hrun.
  { clear Hok. induction ops as [|op ops IH]; intros s0 HI Hb Hok0; simpl in *; [done|].
    apply andb_true_iff in Hok0 as [Henv Hok0].
    apply IH; [by apply Inv_exec|by apply size_bound_exec|done]. }
  apply Hrun; [apply Inv_initial| |done]. unfold Map_size. simpl. lia.
Qed.
End eviction.

(** ** FIFO and LFU *)

Section fifo_lfu.
Context {V : Type}.
Implicit Types (s : State V) (e : CacheEntry V) (opt : Option).

(** C6. Under FIFO, in every reachable state: a [get] of a live key
    returns its content, replaces the entry by the same entry with
    [insertedAt] set to the current time, and leaves every other entry and
    the order of the keys as they were; and a [set] at capacity ([max]
    positive, size at least [max]) evicts the first entry, in iteration
    order, among those of minimal [insertedAt], then appends the new
    entry. The victim is chosen by the current [insertedAt], the one a
    [get] refreshes. *)
Theorem fifo_get_refreshes_set_evicts_oldest max s :
  reachable (NonExpireOption max FIFO) s →
  (∀ key e now,
      Map_get key (cache s) = Some e →
      (get (NonExpireOption max FIFO) now key s).1 = Some (content e)
      ∧ Map_get key (cache (get (NonExpireOption max FIFO) now key s).2)
        = Some (with_insertedAt now e)
      ∧ (∀ k', k' ≠ key →
           Map_get k' (cache (get (NonExpireOption max FIFO) now key s).2)
           = Map_get k' (cache s))
      ∧ keys (cache (get (NonExpireOption max FIFO) now key s).2) = keys (cache s))
  ∧ (∀ key now value,
      0 < max → max ≤ Map_size (cache s) → fresh_uuid key s = true →
      ∃ pre victim ve post,
        cache s = pre ++ (victim, ve) :: post
        ∧ Forall (λ kv, insertedAt ve ≤ insertedAt kv.2) (cache s)
        ∧ Forall (λ kv, insertedAt ve < insertedAt kv.2) pre
        ∧ cache (set (NonExpireOption max FIFO) key now value s).2 =
            pre ++ post ++ [(key, new_entry None value now)]).
Proof.
  intros HI%Inv_reachable. split.
  - intros key e now He. destruct HI as (Hnd & _).
    destruct (get_touch_one max FIFO now key e s) as (H1 & H2 & H3 & H4 & _); done.
  - intros key now value Hmax Hfull Hfresh.
    by apply (set_at_capacity_evicts_min max FIFO).
Qed.

(** C7. Under LFU, in every reachable state: [set] stores the new entry
    with [frequency] 0 and leaves every old entry that survives it as it
    was, so no [set] increments a frequency; a [get] of a live key returns
    its content, replaces the entry by the same entry with [frequency]
    incremented by 1, and leaves every other entry and the order of the
    keys as they were; and a [set] at capacity ([max] positive, size at
    least [max]) evicts the first entry, in iteration order, among those
    of minimal [frequency], then appends the new entry. *)
Theorem lfu_counts_gets_set_evicts_least_frequent max s :
  reachable (NonExpireOption max LFU) s →
  (∀ key now value,
      (∃ e, Map_get key (cache (set (NonExpireOption max LFU) key now value s).2) = Some e
            ∧ frequency e = 0 ∧ content e = value)
      ∧ (∀ k' e', k' ≠ key →
           Map_get k' (cache (set (NonExpireOption max LFU) key now value s).2) = Some e' →
           Map_get k' (cache s) = Some e'))
  ∧ (∀ key e now,
      Map_get key (cache s) = Some e →
      (get (NonExpireOption max LFU) now key s).1 = Some (content e)
      ∧ Map_get key (cache (get (NonExpireOption max LFU) now key s).2)
        = Some (with_frequency (frequency e + 1) e)
      ∧ (∀ k', k' ≠ key →
           Map_get k' (cache (get (NonExpireOption max LFU) now key s).2)
           = Map_get k' (cache s))
      ∧ keys (cache (get (NonExpireOption max LFU) now key s).2) = keys (cache s))
  ∧ (∀ key now value,
      0 < max → max ≤ Map_size (cache s) → fresh_uuid key s = true →
      ∃ pre victim ve post,
        cache s = pre ++ (victim, ve) :: post
        ∧ Forall (λ kv, frequency ve ≤ frequency kv.2) (cache s)
        ∧ Forall (λ kv, frequency ve < frequency kv.2) pre
        ∧ cache (set (NonExpireOption max LFU) key now value s).2 =
            pre ++ post ++ [(key, new_entry None value now)]).
Proof.
  intros HI%Inv_reachable. split; [|split].
  - intros key now value. destruct HI as (Hnd & _). split.
    + exists (new_entry None value now). split; [|done].
      rewrite cache_set_bounded by done. apply Map_get_set_eq.
    + intros k' e' Hne. by apply set_keeps_old_entries.
  - intros key e now He. destruct HI as (Hnd & _).
    destruct (get_touch_one max LFU now key e s) as (H1 & H2 & H3 & H4 & _); done.
  - intros key now value Hmax Hfull Hfresh.
    by apply (set_at_capacity_evicts_min max LFU).
Qed.
End fifo_lfu.

(** ** Construction *)


(** ** LRU ranks *)

Section lru_ranks.
Context {V : Type}.
Implicit Types (s : State V) (e : CacheEntry V).

(** What [get] does to the ranks under LRU: the rank of the key read
    becomes 0 and every other rank grows by 1, whatever it was. *)
Lemma lru_get_ranks max now key e s :
  NoDup (keys (cache s)) → Map_get key (cache s) = Some e →
  (get (NonExpireOption max LRU) now key s).1 = Some (content e)
  ∧ Map_get key (cache (get (NonExpireOption max LRU) now key s).2)
    = Some (with_index 0 e)
  ∧ (∀ k' e', k' ≠ key → Map_get k' (cache s) = Some e' →
       Map_get k' (cache (get (NonExpireOption max LRU) now key s).2)
       = Some (with_index (index e' + 1) e'))
  ∧ keys (cache (get (NonExpireOption max LRU) now key s).2) = keys (cache s).
Proof.
  intros Hnd He. rewrite get_bounded by done. rewrite He.
  cbn [fst snd with_cache cache touched]. rewrite keys_Map_update.
  repeat split; try done.
  - rewrite Map_get_update, He. simpl. unfold lru_touch. by rewrite String.eqb_refl.
  - intros k' e' Hne He'. rewrite Map_get_update, He'. simpl. unfold lru_touch.
    apply not_eq_sym, String.eqb_neq in Hne. by rewrite Hne.
Qed.

Lemma ranked_elem (c : list (string * CacheEntry V)) x :
  ranked c → x ∈ ranks_of c ↔ 0 ≤ x < Map_size c.
Proof. intros Hr. unfold ranked in Hr. rewrite Hr, elem_of_seqZ. lia. Qed.

Lemma ranked_NoDup (c : list (string * CacheEntry V)) : ranked c → NoDup (ranks_of c).
Proof. intros Hr. unfold ranked in Hr. rewrite Hr. apply NoDup_seqZ. Qed.

Lemma Map_size_middle (pre post : list (string * CacheEntry V)) kv :
  Map_size (pre ++ kv :: post) = Map_size (pre ++ post) + 1.
Proof. unfold Map_size. rewrite !length_app. simpl. lia. Qed.

(** Under the rank invariant the entry [_get_lru_key] looks for exists, is
    the only one of its rank, and every other rank is smaller. *)
Lemma lru_victim_ranked (c : list (string * CacheEntry V)) :
  ranked c → c ≠ [] →
  ∃ pre k v post,
    Map_find_key (λ x, index x =? Map_size c - 1) c = Some k
    ∧ c = pre ++ (k, v) :: post
    ∧ index v = Map_size c - 1
    ∧ Forall (λ kv, index kv.2 < index v) (pre ++ post).
Proof.
  intros Hr Hne.
  assert (0 < Map_size c) as Hpos.
  { unfold Map_size. destruct c; [done|]. simpl. lia. }
  destruct (Map_find_key (λ x, index x =? Map_size c - 1) c) as [k|] eqn:E.
  - pose proof E as (pre & v & post & Hc & Hv & _)%Map_find_key_Some.
    apply Z.eqb_eq in Hv. exists pre, k, v, post.
    split; [done|]. split; [done|]. split; [done|].
    pose proof (ranked_NoDup c Hr) as Hnd. rewrite Hc in Hnd. unfold ranks_of in Hnd.
    rewrite fmap_app, fmap_cons in Hnd. simpl in Hnd.
    apply NoDup_app in Hnd as (_ & Hpre & [Hpost _]%NoDup_cons).
    apply Forall_forall. intros kv Hkv.
    assert (index kv.2 ∈ ranks_of c) as Hin.
    { rewrite Hc. unfold ranks_of. rewrite fmap_app, fmap_cons, elem_of_app, elem_of_cons.
      apply elem_of_app in Hkv as [Hkv|Hkv];
        apply (list_elem_of_fmap_2 (λ kv, index kv.2)) in Hkv; tauto. }
    apply (ranked_elem c _ Hr) in Hin.
    assert (index kv.2 ≠ index v); [|lia].
    intros Heq. apply elem_of_app in Hkv as [Hkv|Hkv];
      apply (list_elem_of_fmap_2 (λ kv, index kv.2)) in Hkv; simpl in Hkv; rewrite Heq in Hkv.
    + apply (Hpre _ Hkv). constructor.
    + by apply Hpost.
  - apply Map_find_key_None in E.
    assert (Map_size c - 1 ∈ ranks_of c) as Hin by (apply ranked_elem; [done|lia]).
    apply list_elem_of_fmap in Hin as (kv & Hkv & Hin).
    rewrite Forall_forall in E. specialize (E _ Hin). simpl in E.
    rewrite <- Hkv, Z.eqb_refl in E. done.
Qed.

Lemma ranked_remove_max (pre post : list (string * CacheEntry V)) k v :
  ranked (pre ++ (k, v) :: post) →
  index v = Map_size (pre ++ (k, v) :: post) - 1 →
  ranked (pre ++ post).
Proof.
  unfold ranked, ranks_of. rewrite Map_size_middle. intros Hr Hv.
  rewrite fmap_app, fmap_cons in Hr. simpl in Hr. rewrite <- Permutation_middle in Hr.
  rewrite <- fmap_app in Hr. rewrite Hv in Hr.
  replace (Map_size (pre ++ post) + 1 - 1) with (Map_size (pre ++ post)) in Hr by lia.
  unfold Map_size in *.
  replace (Z.of_nat (length (pre ++ post)) + 1)
    with (Z.of_nat (S (length (pre ++ post)))) in Hr by lia.
  rewrite seqZ_S, Z.add_0_l in Hr. rewrite <- Permutation_cons_append in Hr.
  by apply Permutation_cons_inv in Hr.
Qed.

(** Ageing every rank by one and appending an entry of rank 0 keeps the
    rank invariant. *)
Lemma ranked_age_insert (c : list (string * CacheEntry V)) key e0 :
  index e0 = 0 → ranked c → ranked (Map_update lru_age c ++ [(key, e0)]).
Proof.
  unfold ranked, ranks_of, Map_update. intros He0 Hr.
  rewrite fmap_app. simpl. rewrite He0. rewrite <- Permutation_cons_append.
  rewrite <- list_fmap_compose.
  rewrite (fmap_ext_elem _ (Z.add 1 ∘ (λ kv, index kv.2))) by (intros kv _; simpl; lia).
  rewrite list_fmap_compose, Hr, fmap_add_seqZ.
  unfold Map_size. rewrite length_app, length_fmap. simpl.
  rewrite (seqZ_cons 0 (Z.of_nat (length c + 1))) by lia.
  do 2 f_equiv. lia.
Qed.

(** A [set] under LRU keeps the rank invariant, and at capacity it evicts
    the one entry of maximal rank, ages the others and appends the new
    entry with rank 0, provided the ranks were a permutation of
    [0 .. n-1] before the call. *)
Lemma lru_set_ranked max key now value s :
  Inv (NonExpireOption max LRU) s → rank_invariant s → fresh_uuid key s = true →
  rank_invariant (set (NonExpireOption max LRU) key now value s).2
  ∧ (0 < max → max ≤ Map_size (cache s) →
     ∃ pre victim ve post,
       cache s = pre ++ (victim, ve) :: post
       ∧ index ve = Map_size (cache s) - 1
       ∧ Forall (λ kv, index kv.2 < index ve) (pre ++ post)
       ∧ cache (set (NonExpireOption max LRU) key now value s).2 =
           Map_update lru_age (pre ++ post) ++ [(key, new_entry None value now)]).
Proof.
  intros (Hnd & Hall & _) Hr [_ Hfresh]%fresh_uuid_spec.
  unfold rank_invariant in *. rewrite cache_set_bounded by done.
  cbn [victim_of aged].
  assert (∀ c : list (string * CacheEntry V),
            Map_get key c = None →
            Map_set key (new_entry None value now) (Map_update lru_age c)
            = Map_update lru_age c ++ [(key, new_entry None value now)]) as Hins.
  { intros c Hc. apply Map_set_fresh. by rewrite Map_get_update, Hc. }
  split.
  - destruct (cache_evict max (_get_lru_key s) s) as [->|(k & Hk & _ & _ & ->)].
    + rewrite Hins by done. by apply ranked_age_insert.
    + apply Map_find_key_Some in Hk as (pre & v & post & Hc & Hv & _).
      apply Z.eqb_eq in Hv. rewrite Hc in *.
      rewrite Map_delete_middle by done.
      rewrite Hins.
      * apply ranked_age_insert; [done|]. by apply (ranked_remove_max pre post k v).
      * rewrite <- (Map_delete_middle k v) by done.
        destruct (decide (k = key)) as [->|Hne];
          [apply Map_get_delete_eq|by rewrite Map_get_delete_ne].
  - intros Hmax Hfull.
    assert (cache s ≠ []) as Hne.
    { intros Hnil. rewrite Hnil in Hfull. unfold Map_size in Hfull. simpl in Hfull. lia. }
    destruct (lru_victim_ranked (cache s) Hr Hne) as (pre & k & v & post & Hk & Hc & Hv & Hlt).
    exists pre, k, v, post. split; [done|]. split; [done|]. split; [done|].
    unfold _get_lru_key. rewrite Hk.
    assert (truthy_string k = true) as Htruthy.
    { rewrite Forall_forall in Hall. apply (Hall (k, v)).
      rewrite Hc. apply elem_of_app. right. constructor. }
    unfold evict. rewrite Htruthy. simpl.
    destruct (Z.geb_spec (Map_size (cache s)) max); [|lia]. simpl.
    rewrite Hc in *. rewrite Map_delete_middle by done. apply Hins.
    rewrite <- (Map_delete_middle k v) by done.
    destruct (decide (k = key)) as [->|Hkey];
      [apply Map_get_delete_eq|by rewrite Map_get_delete_ne].
Qed.
End lru_ranks.

(** C1 at [read_middle] and at [remove_newest]: the ranks after the read
    are 3, 0, 1 for three entries, and after the removal the only entry has
    rank 1; neither is a permutation of [0 .. n-1]. *)
Theorem lru_ranks_not_permutation :
  trace_ok lru3 read_middle initial_state = true
  ∧ ranks (run lru3 read_middle initial_state) = [3; 0; 1]
  ∧ ¬ rank_invariant (run lru3 read_middle initial_state)
  ∧ trace_ok lru3 remove_newest initial_state = true
  ∧ ranks (run lru3 remove_newest initial_state) = [1]
  ∧ ¬ rank_invariant (run lru3 remove_newest initial_state).
Proof.
  split; [done|]. split; [done|]. split; [|split; [done|split; [done|]]].
  - unfold rank_invariant, ranked.
    change (ranks_of (cache (run lru3 read_middle initial_state))) with [3; 0; 1].
    change (seqZ 0 _) with [0; 1; 2].
    intros Hp. assert (2 ∈ [3; 0; 1]) as Hin.
    { rewrite Hp. do 2 constructor. constructor. }
    repeat (apply elem_of_cons in Hin as [Hin|Hin]; [done|]).
    by apply elem_of_nil in Hin.
  - unfold rank_invariant, ranked.
    change (ranks_of (cache (run lru3 remove_newest initial_state))) with [1].
    change (seqZ 0 _) with [0].
    intros Hp. assert (0 ∈ [1]) as Hin.
    { rewrite Hp. constructor. }
    repeat (apply elem_of_cons in Hin as [Hin|Hin]; [done|]).
    by apply elem_of_nil in Hin.
Qed.

(** C2 at [read_middle] followed by one more [set]: the cache of capacity 3
    then holds 4 entries. *)
Theorem lru_set_exceeds_capacity :
  trace_ok lru3 (read_middle ++ [OpSet "d" 5 "D"]) initial_state = true
  ∧ keys (cache (run lru3 (read_middle ++ [OpSet "d" 5 "D"]) initial_state))
    = ["a"; "b"; "c"; "d"]
  ∧ Map_size (cache (run lru3 (read_middle ++ [OpSet "d" 5 "D"]) initial_state)) = 4
  ∧ ¬ Map_size (cache (run lru3 (read_middle ++ [OpSet "d" 5 "D"]) initial_state)) ≤ 3.
Proof. split; [done|]. split; [done|]. split; [done|]. by vm_compute. Qed.

(** C4 at the state after [read_middle]: the size equals the capacity, the
    entry of maximal rank is ["a"] (rank 3), [_get_lru_key] looks for rank 2
    and finds nothing, and the [set] evicts no entry. *)
Theorem lru_set_at_capacity_evicts_nothing :
  let s := run lru3 read_middle initial_state in
  Map_size (cache s) = 3
  ∧ (λ kv, (kv.1, index kv.2)) <$> cache s = [("a", 3); ("b", 0); ("c", 1)]
  ∧ _get_lru_key s = None
  ∧ fresh_uuid "d" s = true
  ∧ (λ kv, (kv.1, index kv.2)) <$> cache (set lru3 "d" 5 "D" s).2
    = [("a", 4); ("b", 1); ("c", 2); ("d", 0)].
Proof. repeat split. Qed.

(** ** The theorems at concrete caches *)

Lemma reachable_run opt (ops : list (Op string)) :
  trace_ok opt ops initial_state = true → reachable opt (run opt ops initial_state).
Proof. intros Hok. by exists ops. Qed.

(** At time 12 the entry ["a"], due at 11, is overdue although its timeout
    has not fired: [get] and [has] drop it. *)
Lemma expire_lazy_deletion_witness :
  let s := run expire10 three_timed initial_state in
  reachable expire10 s
  ∧ rt_timeouts s !! 1 = Some "a"
  ∧ (get expire10 12 "a" s).1 = None
  ∧ (has expire10 12 "a" s).1 = false
  ∧ timers (get expire10 12 "a" s).2 !! "a" = None
  ∧ rt_timeouts (get expire10 12 "a" s).2 !! 1 ≠ Some "a".
Proof.
  intros s.
  assert (reachable expire10 s) as Hr by (by apply reachable_run).
  split; [exact Hr|]. split; [reflexivity|].
  destruct (expire_lazy_deletion 10 s Hr) as [Hdrop _].
  destruct (Hdrop "a" (new_entry (Some 11) "A" 1) 11 12)
    as (Hget & Hhas & _ & _ & Htimer & Hpending); [reflexivity|reflexivity|lia|].
  split; [exact Hget|]. split; [exact Hhas|]. split; [exact Htimer|apply Hpending].
Defined.

(** ["a"] was inserted first and read at time 4: the [set] at capacity
    evicts ["b"]. *)
Lemma fifo_get_refreshes_set_evicts_oldest_witness :
  let s := run fifo3 read_first initial_state in
  reachable fifo3 s
  ∧ (λ kv, (kv.1, insertedAt kv.2)) <$> cache s = [("a", 4); ("b", 2); ("c", 3)]
  ∧ keys (cache (set fifo3 "d" 5 "D" s).2) = ["a"; "c"; "d"]
  ∧ ∃ pre victim ve post,
      cache s = pre ++ (victim, ve) :: post
      ∧ Forall (λ kv, insertedAt ve ≤ insertedAt kv.2) (cache s)
      ∧ Forall (λ kv, insertedAt ve < insertedAt kv.2) pre
      ∧ cache (set fifo3 "d" 5 "D" s).2 = pre ++ post ++ [("d", new_entry None "D" 5)].
Proof.
  intros s.
  assert (reachable fifo3 s) as Hr by (by apply reachable_run).
  split; [exact Hr|]. split; [reflexivity|]. split; [reflexivity|].
  destruct (fifo_get_refreshes_set_evicts_oldest 3 s Hr) as [_ Hset].
  apply Hset; [lia|by vm_compute|reflexivity].
Defined.

(** ["a"] was read twice and ["c"] once: the [set] at capacity evicts ["b"]. *)
Lemma lfu_counts_gets_set_evicts_least_frequent_witness :
  let s := run lfu3 read_first_and_last initial_state in
  reachable lfu3 s
  ∧ (λ kv, (kv.1, frequency kv.2)) <$> cache s = [("a", 2); ("b", 0); ("c", 1)]
  ∧ keys (cache (set lfu3 "d" 7 "D" s).2) = ["a"; "c"; "d"]
  ∧ ∃ pre victim ve post,
      cache s = pre ++ (victim, ve) :: post
      ∧ Forall (λ kv, frequency ve ≤ frequency kv.2) (cache s)
      ∧ Forall (λ kv, frequency ve < frequency kv.2) pre
      ∧ cache (set lfu3 "d" 7 "D" s).2 = pre ++ post ++ [("d", new_entry None "D" 7)].
Proof.
  intros s.
  assert (reachable lfu3 s) as Hr by (by apply reachable_run).
  split; [exact Hr|]. split; [reflexivity|]. split; [reflexivity|].
  destruct (lfu_counts_gets_set_evicts_least_frequent 3 s Hr) as (_ & _ & Hset).
  apply Hset; [lia|by vm_compute|reflexivity].
Defined.

(** At time 13 the entries due at 11 and 12 are overdue: [size()] is 1. *)
Lemma size_sweeps_expired_witness :
  let s := run expire10 three_timed initial_state in
  reachable expire10 s
  ∧ keys (cache s) = ["a"; "b"; "c"]
  ∧ (size expire10 13 s).1 = 1
  ∧ cache (size expire10 13 s).2 = filter (λ kv, overdue 13 kv.2 = false) (cache s).
Proof.
  intros s.
  assert (reachable expire10 s) as Hr by (by apply reachable_run).
  split; [exact Hr|]. split; [reflexivity|].
  destruct (size_sweeps_expired (V:=string)) as [Hexpire _].
  destruct (Hexpire 10 13 s Hr) as (Hcache & Hsize & _).
  split; [|exact Hcache]. etrans; [exact Hsize|reflexivity].
Defined.

Lemma bounded_entries_never_expire_witness :
  let s := run lru3 read_middle initial_state in
  reachable lru3 s
  ∧ Forall (λ kv, expires kv.2 = None) (cache s)
  ∧ keys (cache (get lru3 9 "a" s).2) = keys (cache s).
Proof.
  intros s.
  assert (reachable lru3 s) as Hr by (by apply reachable_run).
  split; [exact Hr|].
  destruct (bounded_entries_never_expire 3 LRU s Hr) as (_ & Hall & _ & Hget & _).
  split; [exact Hall|apply Hget].
Defined.

(** Removing ["b"] from the LRU cache of [read_middle] leaves ["a"] and
    ["c"] with the ranks 3 and 1 they had. *)
Lemma remove_frame_witness :
  let s := run lru3 read_middle initial_state in
  Map_get "b" (cache (remove lru3 "b" s)) = None
  ∧ Map_get "a" (cache (remove lru3 "b" s)) = Map_get "a" (cache s)
  ∧ index <$> Map_get "a" (cache (remove lru3 "b" s)) = Some 3
  ∧ index <$> Map_get "c" (cache (remove lru3 "b" s)) = Some 1.
Proof.
  intros s.
  destruct (remove_frame lru3 "b" s) as (_ & Hgone & Hother & _ & Hrank).
  split; [exact Hgone|]. split; [by apply Hother|].
  split.
  - apply (Hrank 3 "a" (mkEntry None "A" 3 0 1)); [done|reflexivity].
  - apply (Hrank 3 "c" (mkEntry None "C" 1 0 3)); [done|reflexivity].
Defined.

(** * Further properties of the methods *)

Section whole_state.
Context {V : Type}.
Implicit Types (s : State V) (e : CacheEntry V) (opt : Option).

Lemma with_cache_same s : with_cache (cache s) s = s.
Proof. by destruct s. Qed.

Lemma clear_timer_absent key s : timers s !! key = None → clear_timer key s = s.
Proof. intros H. unfold clear_timer. by rewrite H. Qed.

Lemma remove_absent opt key s :
  Inv opt s → Map_get key (cache s) = None → remove opt key s = s.
Proof.
  intros (_ & _ & Hsync) Hnone. unfold remove.
  destruct opt as [maxAge|max type]; simpl in Hsync.
  - destruct (timers_sync_absent s key Hsync Hnone) as [Ht _].
    rewrite clear_timer_absent by done.
    rewrite Map_delete_absent by done. apply with_cache_same.
  - rewrite Map_delete_absent by done. apply with_cache_same.
Qed.

Lemma rt_timeouts_empty s :
  timers_sync s → timers s = ∅ → rt_timeouts s = ∅.
Proof.
  intros (Hb & _) Ht. apply map_empty. intros i.
  destruct (rt_timeouts s !! i) as [k|] eqn:E; [|done].
  apply Hb in E. rewrite Ht, lookup_empty in E. done.
Qed.

Lemma clear_state opt s :
  Inv opt s → clear opt s = mkState [] ∅ ∅ (rt_next s).
Proof.
  intros HI. pose proof (Inv_clear opt s HI) as (_ & _ & Hsync').
  destruct HI as (_ & _ & Hsync).
  destruct opt as [maxAge|max type]; simpl in Hsync, Hsync'.
  - pose proof (rt_timeouts_empty _ Hsync' eq_refl) as Hrt.
    destruct (foldr_clearTimeout (map_to_list (timers s)).*2 s) as (_ & _ & Hn & _).
    unfold clear in *. unfold with_cache, with_timers in *. simpl in *.
    by rewrite Hrt, Hn.
  - destruct Hsync as [Ht Hrt]. unfold clear, with_cache. by rewrite Ht, Hrt.
Qed.

(** X1. In every reachable state and under every policy, [clear()] leaves
    no entry, no timer handle and no pending timeout: the state is that of
    a new cache, up to the host's next handle. Afterwards [get] and [has]
    fail for every key, [size()] is 0, no timeout does anything when it
    fires, and a second [clear()] changes nothing. *)
Theorem clear_resets_cache opt s :
  reachable opt s →
  clear opt s = mkState [] ∅ ∅ (rt_next s)
  ∧ (∀ now key, get opt now key (clear opt s) = (None, clear opt s))
  ∧ (∀ now key, has opt now key (clear opt s) = (false, clear opt s))
  ∧ (∀ now, size opt now (clear opt s) = (0, clear opt s))
  ∧ (∀ timerId, timeout_fires timerId (clear opt s) = clear opt s)
  ∧ clear opt (clear opt s) = clear opt s.
Proof.
  intros HI%Inv_reachable. pose proof (Inv_clear opt s HI) as HI'.
  rewrite (clear_state opt (clear opt s) HI').
  rewrite !(clear_state opt s HI). repeat split.
  intros now. by destruct opt.
Qed.

(** X2. Under every policy, [remove(key)] of a key without entry leaves a
    reachable state exactly as it is (entries, timer handles and pending
    timeouts); [remove] is idempotent; and after [remove(key)] both [get]
    and [has] fail for [key] without changing anything, [key] has no timer
    handle and no pending timeout targets it, while the handles and the
    timeouts of the other keys are as before. *)
Theorem remove_then_absent opt key s :
  reachable opt s →
  (Map_get key (cache s) = None → remove opt key s = s)
  ∧ remove opt key (remove opt key s) = remove opt key s
  ∧ (∀ now, get opt now key (remove opt key s) = (None, remove opt key s))
  ∧ (∀ now, has opt now key (remove opt key s) = (false, remove opt key s))
  ∧ timers (remove opt key s) !! key = None
  ∧ (∀ timerId, rt_timeouts (remove opt key s) !! timerId ≠ Some key)
  ∧ (∀ k', k' ≠ key → timers (remove opt key s) !! k' = timers s !! k')
  ∧ (∀ timerId k', k' ≠ key →
       rt_timeouts s !! timerId = Some k' →
       rt_timeouts (remove opt key s) !! timerId = Some k').
Proof.
  intros HI%Inv_reachable. pose proof (Inv_remove opt key s HI) as HI'.
  assert (Map_get key (cache (remove opt key s)) = None) as Hgone.
  { rewrite cache_remove. apply Map_get_delete_eq. }
  split; [by apply remove_absent|]. split; [by apply remove_absent|].
  split; [intros now; unfold get; by rewrite Hgone|].
  split; [intros now; unfold has; by rewrite Hgone|].
  destruct opt as [maxAge|max type].
  - destruct HI' as (_ & _ & Hsync'). simpl in Hsync'.
    destruct (timers_sync_absent _ key Hsync' Hgone) as [Ht Hrt].
    split; [done|]. split; [done|].
    destruct HI as (_ & _ & (Hb & _)).
    unfold remove, clear_timer. simpl.
    destruct (timers s !! key) as [id|] eqn:E; [destruct (truthy_number id)|]; simpl;
      (split; [intros k' Hne; by rewrite ?lookup_delete_ne|]);
      intros timerId k' Hne Hk'; try done.
    rewrite lookup_delete_ne; [done|]. intros ->. apply Hb in E. congruence.
  - destruct HI as (_ & _ & [Ht Hrt]). simpl.
    rewrite Ht, Hrt. repeat split; done.
Qed.

(** X3. [has(key)] is true exactly when a [get(key)] made at the same
    instant on the same state returns a content. A [has] that answers
    [true] changes nothing (in particular no rank, no frequency and no
    insertion time), and when [has] answers [false] it leaves the state a
    failing [get] leaves. *)
Theorem has_agrees_with_get opt now key s :
  ((has opt now key s).1 = true ↔ is_Some (get opt now key s).1)
  ∧ ((has opt now key s).1 = true → (has opt now key s).2 = s)
  ∧ ((has opt now key s).1 = false → (has opt now key s).2 = (get opt now key s).2).
Proof.
  unfold has, get. destruct (Map_get key (cache s)) as [e|].
  - destruct (is_expired opt now e); simpl;
      repeat split; try done; try (by intros [? ?]); eauto.
  - simpl. repeat split; try done; by intros [? ?].
Qed.
End whole_state.

Section round_trips.
Context {V : Type}.
Implicit Types (s : State V) (e : CacheEntry V) (opt : Option).

Lemma Map_get_after_set opt key now value s :
  NoDup (keys (cache s)) →
  Map_get key (cache (set opt key now value s).2)
  = Some (new_entry (match opt with
                     | ExpireOption maxAge => Some (now + maxAge)
                     | NonExpireOption _ _ => None
                     end) value now).
Proof.
  intros Hnd. destruct opt as [maxAge|max type].
  - simpl. apply Map_get_set_eq.
  - rewrite cache_set_bounded by done. apply Map_get_set_eq.
Qed.

(** X4. Insert and look up. In every reachable state and under every
    policy, [set(value)] returns the generated key, and a [get] of that key
    made right after returns [value] and a [has] answers [true] without
    changing the state; under EXPIRE this holds for a look-up at any time up
    to [now + maxAge], the deadline included. *)
Theorem set_then_get opt key now value now' s :
  reachable opt s → fresh_uuid key s = true →
  match opt with
  | ExpireOption maxAge => now' ≤ now + maxAge
  | NonExpireOption _ _ => True
  end →
  (set opt key now value s).1 = key
  ∧ (get opt now' key (set opt key now value s).2).1 = Some value
  ∧ has opt now' key (set opt key now value s).2
    = (true, (set opt key now value s).2).
Proof.
  intros HI%Inv_reachable Hfresh Hnow.
  pose proof (Inv_set opt key now value s HI Hfresh) as (Hnd' & _).
  destruct HI as (Hnd & _).
  pose proof (Map_get_after_set opt key now value s Hnd) as Hget.
  split; [by destruct opt as [?|? []]|].
  unfold get, has. rewrite Hget.
  destruct opt as [maxAge|max type]; simpl.
  - destruct (Z.gtb_spec now' (now + maxAge)); [lia|done].
  - done.
Qed.

(** X5. [set] under EXPIRE, for a fresh key in any state: the new entry,
    with deadline [now + maxAge], goes to the end of the map and no entry is
    evicted, whatever the size; the handle of the new timeout is recorded
    under the key and the timeout targets the key; the handles and timeouts
    of the other keys are as before; and a [get] or [has] made after the
    deadline fails even though the timeout is still pending. *)
Theorem expire_set_appends maxAge key now value s :
  fresh_uuid key s = true →
  cache (set (ExpireOption maxAge) key now value s).2
  = cache s ++ [(key, new_entry (Some (now + maxAge)) value now)]
  ∧ Map_size (cache (set (ExpireOption maxAge) key now value s).2)
    = Map_size (cache s) + 1
  ∧ timers (set (ExpireOption maxAge) key now value s).2 !! key = Some (rt_next s)
  ∧ rt_timeouts (set (ExpireOption maxAge) key now value s).2 !! rt_next s = Some key
  ∧ (∀ k', k' ≠ key →
       timers (set (ExpireOption maxAge) key now value s).2 !! k' = timers s !! k')
  ∧ (∀ timerId, timerId ≠ rt_next s →
       rt_timeouts (set (ExpireOption maxAge) key now value s).2 !! timerId
       = rt_timeouts s !! timerId)
  ∧ (∀ now', now' > now + maxAge →
       (get (ExpireOption maxAge) now' key
          (set (ExpireOption maxAge) key now value s).2).1 = None
       ∧ (has (ExpireOption maxAge) now' key
            (set (ExpireOption maxAge) key now value s).2).1 = false
       ∧ rt_timeouts
           (set (ExpireOption maxAge) key now value s).2 !! rt_next s = Some key).
Proof.
  intros [_ Hfresh]%fresh_uuid_spec. simpl.
  rewrite Map_set_fresh by done.
  split; [done|]. split; [unfold Map_size; rewrite length_app; simpl; lia|].
  split; [apply lookup_insert_eq|]. split; [apply lookup_insert_eq|].
  split; [intros k' Hne; by apply lookup_insert_ne|].
  split; [intros timerId Hne; by apply lookup_insert_ne|].
  intros now' Hlate. unfold get, has. simpl.
  rewrite <- (Map_set_fresh key _ (cache s)) by done. rewrite Map_get_set_eq. simpl.
  destruct (Z.gtb_spec now' (now + maxAge)); [|lia]. simpl.
  split; [done|]. split; [done|]. apply lookup_insert_eq.
Qed.

(** X6. The callback of the timeout scheduled by [set]. In every reachable
    state under EXPIRE, a pending timeout targets a key that has an entry
    and whose recorded handle is that timeout; when it fires, the entry and
    the handle of that key are deleted and every other entry and handle is
    as before; the timeout is then spent: firing the same handle again does
    nothing. A handle that is not pending (never handed out, cleared or
    spent) does nothing when fired. *)
Theorem timeout_deletes_its_entry maxAge s :
  reachable (ExpireOption maxAge) s →
  (∀ timerId key,
      rt_timeouts s !! timerId = Some key →
      timers s !! key = Some timerId
      ∧ is_Some (Map_get key (cache s))
      ∧ cache (timeout_fires timerId s) = filter (λ kv, kv.1 ≠ key) (cache s)
      ∧ Map_get key (cache (timeout_fires timerId s)) = None
      ∧ timers (timeout_fires timerId s) !! key = None
      ∧ (∀ k', k' ≠ key →
           Map_get k' (cache (timeout_fires timerId s)) = Map_get k' (cache s)
           ∧ timers (timeout_fires timerId s) !! k' = timers s !! k')
      ∧ timeout_fires timerId (timeout_fires timerId s) = timeout_fires timerId s)
  ∧ (∀ timerId, rt_timeouts s !! timerId = None → timeout_fires timerId s = s).
Proof.
  intros (_ & _ & (Hb & Hc & _))%Inv_reachable. split.
  - intros timerId key Hpending. pose proof Hpending as Ht%Hb.
    split; [done|]. split; [rewrite Map_get_is_Some, <- Hc; eauto|].
    assert (timeout_fires timerId s
            = mkState (Map_delete key (cache s)) (delete key (timers s))
                (delete timerId (rt_timeouts s)) (rt_next s)) as ->.
    { unfold timeout_fires. by rewrite Hpending. }
    cbn [cache timers rt_timeouts].
    split; [apply Map_delete_filter|]. split; [apply Map_get_delete_eq|].
    split; [apply lookup_delete_eq|]. split.
    + intros k' Hne. split; [by apply Map_get_delete_ne|by apply lookup_delete_ne].
    + unfold timeout_fires. cbn [rt_timeouts]. by rewrite lookup_delete_eq.
  - intros timerId Hnone. unfold timeout_fires. by rewrite Hnone.
Qed.

(** X7. What holds in every reachable state. The keys of the map are
    pairwise distinct and non-empty. Under EXPIRE every entry has a
    deadline, a key has an entry exactly when it has a timer handle, the
    handles are positive, and [timers] and the pending timeouts mirror each
    other: no timer is orphaned and no pending timeout targets a key that
    is gone. Under LRU, LFU and FIFO no timer handle and no timeout ever
    exists. *)
Theorem reachable_state_invariants opt s :
  reachable opt s →
  NoDup (keys (cache s))
  ∧ Forall (λ k, k ≠ "") (keys (cache s))
  ∧ match opt with
    | ExpireOption _ =>
        Forall (λ kv, is_Some (expires kv.2)) (cache s)
        ∧ (∀ k, k ∈ keys (cache s) ↔ is_Some (timers s !! k))
        ∧ (∀ k timerId, timers s !! k = Some timerId ↔ rt_timeouts s !! timerId = Some k)
        ∧ (∀ k timerId, timers s !! k = Some timerId → 0 < timerId < rt_next s)
    | NonExpireOption _ _ => timers s = ∅ ∧ rt_timeouts s = ∅
    end.
Proof.
  intros (Hnd & Hall & Hsync)%Inv_reachable. split; [done|]. split.
  - unfold keys. rewrite Forall_fmap. eapply Forall_impl; [exact Hall|].
    intros [k e] [Ht _]. simpl in *. intros ->. done.
  - destruct opt as [maxAge|max type]; [|done].
    destruct Hsync as (Hb & Hc & Hd & _). split; [|split; [|split]].
    + eapply Forall_impl; [exact Hall|]. by intros kv [_ ?].
    + intros k. by rewrite Hc.
    + done.
    + intros k timerId H%Hb. by apply Hd in H.
Qed.
End round_trips.

Section construction.
Context {V : Type}.
Implicit Types (s : State V) (opt : Option).

End construction.

Section lru_reads.
Context {V : Type}.
Implicit Types (s : State V) (e : CacheEntry V).

Lemma Map_update_touch_middle key e (pre post : list (string * CacheEntry V)) :
  NoDup (keys (pre ++ (key, e) :: post)) →
  Map_update (lru_touch key) (pre ++ (key, e) :: post)
  = Map_update lru_age pre ++ (key, with_index 0 e) :: Map_update lru_age post.
Proof.
  unfold keys. rewrite fmap_app, fmap_cons. simpl.
  intros (_ & Hpre & [Hpost _]%NoDup_cons)%NoDup_app.
  unfold Map_update. rewrite fmap_app, fmap_cons. simpl.
  assert (lru_touch key key e = with_index 0 e) as ->
    by (unfold lru_touch; by rewrite String.eqb_refl).
  f_equal; [|f_equal].
  - apply fmap_ext_elem. intros [k1 e1] Hin. simpl. unfold lru_touch.
    destruct (String.eqb_spec key k1) as [<-|]; [|done].
    apply (list_elem_of_fmap_2 fst) in Hin. destruct (Hpre _ Hin). constructor.
  - apply fmap_ext_elem. intros [k1 e1] Hin. simpl. unfold lru_touch.
    destruct (String.eqb_spec key k1) as [<-|]; [|done].
    apply (list_elem_of_fmap_2 fst) in Hin. by destruct Hpost.
Qed.

Lemma ranked_perm (c c' : list (string * CacheEntry V)) :
  ranks_of c ≡ₚ ranks_of c' → ranked c' → ranked c.
Proof.
  unfold ranked. intros Hp Hr. rewrite Hp, Hr.
  apply Permutation_length in Hp. unfold ranks_of in Hp. rewrite !length_fmap in Hp.
  unfold Map_size. by rewrite Hp.
Qed.

Lemma ranked_touch_oldest key e (pre post : list (string * CacheEntry V)) :
  NoDup (keys (pre ++ (key, e) :: post)) →
  ranked (pre ++ (key, e) :: post) →
  index e = Map_size (pre ++ (key, e) :: post) - 1 →
  ranked (Map_update (lru_touch key) (pre ++ (key, e) :: post)).
Proof.
  intros Hnd Hr He. rewrite Map_update_touch_middle by done.
  pose proof (ranked_age_insert (pre ++ post) key (with_index 0 e) eq_refl
                (ranked_remove_max pre post key e Hr He)) as Hr'.
  eapply ranked_perm; [|exact Hr'].
  unfold ranks_of, Map_update. rewrite !fmap_app, !fmap_cons.
  by rewrite <- Permutation_middle, <- Permutation_cons_append.
Qed.

(** X8. Reads under LRU. In a reachable state whose ranks are a
    permutation of [0 .. n-1], a [get] of a live key gives that entry rank
    0 and adds 1 to the rank of every other entry; the ranks are again a
    permutation of [0 .. n-1] exactly when the entry read was the least
    recently used one (rank [n - 1]). *)
Theorem lru_get_keeps_ranks_iff_oldest max now key e s :
  reachable (NonExpireOption max LRU) s → rank_invariant s →
  Map_get key (cache s) = Some e →
  Map_get key (cache (get (NonExpireOption max LRU) now key s).2)
  = Some (with_index 0 e)
  ∧ (∀ k' e', k' ≠ key → Map_get k' (cache s) = Some e' →
       Map_get k' (cache (get (NonExpireOption max LRU) now key s).2)
       = Some (with_index (index e' + 1) e'))
  ∧ (rank_invariant (get (NonExpireOption max LRU) now key s).2
     ↔ index e = Map_size (cache s) - 1).
Proof.
  intros (Hnd & _)%Inv_reachable Hr He.
  destruct (lru_get_ranks max now key e s Hnd He) as (_ & Hkey & Hother & _).
  split; [done|]. split; [done|].
  unfold rank_invariant in *. rewrite get_bounded by done. rewrite He.
  cbn [snd with_cache cache touched].
  pose proof (Map_get_Some_elem _ _ _ He) as Hin.
  split.
  - intros Hr'.
    assert (0 < Map_size (cache s)) as Hpos.
    { unfold Map_size. destruct (cache s); [by apply elem_of_nil in Hin|]. simpl. lia. }
    assert (Map_size (cache s) - 1 ∈ ranks_of (cache s)) as Hmax
      by (apply ranked_elem; [done|lia]).
    apply list_elem_of_fmap in Hmax as ([k1 e1] & Hidx & Hin1). simpl in Hidx.
    destruct (decide (k1 = key)) as [->|Hne].
    + rewrite (Map_get_elem _ _ _ Hnd Hin1) in He. by injection He as ->.
    + assert (Map_size (cache s) ∈ ranks_of (Map_update (lru_touch key) (cache s))) as Hbad.
      { unfold ranks_of, Map_update. rewrite <- list_fmap_compose.
        apply list_elem_of_fmap. exists (k1, e1). split; [|done]. simpl.
        unfold lru_touch. apply not_eq_sym, String.eqb_neq in Hne. rewrite Hne.
        simpl. lia. }
      apply (ranked_elem _ _ Hr') in Hbad.
      unfold Map_size in Hbad. rewrite length_Map_update in Hbad. lia.
  - intros Hidx. apply list_elem_of_split in Hin as (pre & post & Hc).
    rewrite Hc in *. by apply ranked_touch_oldest.
Qed.
End lru_reads.

Section capacity.
Context {V : Type}.
Implicit Types (s : State V) (e : CacheEntry V).

Lemma set_same_when_full max max' type key now value s :
  NoDup (keys (cache s)) →
  max ≤ Map_size (cache s) → max' ≤ Map_size (cache s) →
  cache (set (NonExpireOption max type) key now value s).2
  = cache (set (NonExpireOption max' type) key now value s).2.
Proof.
  intros Hnd Hfull Hfull'. rewrite !cache_set_bounded by done.
  do 3 f_equal. unfold evict. destruct (victim_of type s) as [k|]; [|done].
  destruct (Z.geb_spec (Map_size (cache s)) max); [|lia].
  destruct (Z.geb_spec (Map_size (cache s)) max'); [|lia]. done.
Qed.

Lemma size_bound_exec_any max type op s :
  type ≠ LRU →
  Inv (NonExpireOption max type) s → env_ok op s = true →
  Map_size (cache s) ≤ Z.max 1 max →
  Map_size (cache (exec (NonExpireOption max type) op s)) ≤ Z.max 1 max.
Proof.
  intros Htype HI Henv Hbound. pose proof HI as (Hnd & _ & _ & Hrt).
  destruct op as [key now value|now key|now key|key| |now|timerId]; cbn [exec].
  - destruct (decide (cache s = [])) as [Hnil|Hne].
    + rewrite cache_set_bounded by done. unfold Map_size in *.
      pose proof (length_Map_set_le key (new_entry None value now)
                    (aged type (cache (evict max (victim_of type s) s)))) as Hset.
      rewrite length_aged in Hset.
      destruct (cache_evict max (victim_of type s) s) as [Heq|(k & _ & _ & _ & Heq)];
        rewrite Heq in Hset |- *; rewrite Hnil in Hset |- *;
        cbn [Map_delete length] in Hset |- *; lia.
    + assert (1 ≤ Map_size (cache s)) as Hone.
      { unfold Map_size. destruct (cache s); [done|]. simpl. lia. }
      destruct (Z.le_gt_cases max (Map_size (cache s))) as [Hfull|Hroom].
      * rewrite (set_same_when_full max 1) by (done || lia).
        destruct (set_at_capacity_evicts_min 1 type key now value s)
          as (pre & victim & ve & post & Hc & _ & _ & ->); try done.
        rewrite Hc in Hbound. unfold Map_size in *.
        rewrite !length_app in *. simpl in *. lia.
      * rewrite cache_set_bounded by done. unfold Map_size in *.
        pose proof (length_Map_set_le key (new_entry None value now)
                      (aged type (cache (evict max (victim_of type s) s)))) as Hset.
        rewrite length_aged in Hset.
        destruct (cache_evict max (victim_of type s) s) as [Heq|(k & _ & _ & _ & Heq)];
          rewrite Heq in Hset |- *; [lia|].
        pose proof (length_Map_delete_le k (cache s)). lia.
  - rewrite get_bounded by done. destruct (Map_get key (cache s)); [|done].
    cbn [snd with_cache cache]. unfold Map_size in *.
    destruct type; simpl; rewrite length_Map_update; done.
  - unfold has. by destruct (Map_get key (cache s)).
  - rewrite cache_remove. unfold Map_size in *.
    pose proof (length_Map_delete_le key (cache s)). lia.
  - simpl. unfold Map_size. simpl. lia.
  - done.
  - unfold timeout_fires. simpl in Hrt. rewrite Hrt, lookup_empty. done.
Qed.

(** X9. The capacity bound of LFU and FIFO. In every reachable state of an
    LFU or FIFO cache the map holds at most [max] entries, for every
    positive [max]; for a [max] of 0 or less it holds at most one entry. *)
Theorem lfu_fifo_size_bound max type s :
  type ≠ LRU → reachable (NonExpireOption max type) s →
  Map_size (cache s) ≤ Z.max 1 max.
Proof.
  intros Htype (ops & Hok & ->).
  assert (∀ s0 : State V,
            Inv (NonExpireOption max type) s0 → Map_size (cache s0) ≤ Z.max 1 max →
            trace_ok (NonExpireOption max type) ops s0 = true →
            Map_size (cache (run (NonExpireOption max type) ops s0)) ≤ Z.max 1 max)
    as Hrun.
  { clear Hok. induction ops as [|op ops IH]; intros s0 HI Hb Hok0; simpl in *; [done|].
    apply andb_true_iff in Hok0 as [Henv Hok0].
    apply IH; [by apply Inv_exec|by apply size_bound_exec_any|done]. }
  apply Hrun; [apply Inv_initial| |done]. unfold Map_size. simpl. lia.
Qed.
End capacity.

Section size_again.
Context {V : Type}.
Implicit Types (s : State V) (e : CacheEntry V) (opt : Option).

Lemma sweep_nothing_overdue opt now ks s :
  Forall (λ kv, overdue now kv.2 = false) (cache s) → sweep opt now ks s = s.
Proof.
  intros Hall. induction ks as [|k ks IH]; [done|]. rewrite sweep_cons.
  destruct (Map_get k (cache s)) as [e|] eqn:He; [|done].
  apply Map_get_Some_elem in He. rewrite Forall_forall in Hall.
  specialize (Hall _ He). simpl in Hall.
  destruct opt as [maxAge|max type]; [|done].
  rewrite is_expired_overdue, Hall. done.
Qed.

Lemma keys_filter {A} (P : string * A → Prop) (Q : string → Prop)
    `{!∀ x, Decision (P x), !∀ x, Decision (Q x)} (c : list (string * A)) :
  (∀ kv, kv ∈ c → P kv ↔ Q kv.1) → keys (filter P c) = filter Q (keys c).
Proof.
  unfold keys. induction c as [|kv c IH]; intros Hext; [done|].
  assert ((filter P c).*1 = filter Q c.*1) as IH'.
  { apply IH. intros x Hx. apply Hext. by constructor. }
  rewrite fmap_cons. destruct (decide (P kv)) as [HP|HP].
  - rewrite filter_cons_True by done.
    rewrite filter_cons_True by (apply Hext; [constructor|done]).
    rewrite fmap_cons. by f_equal.
  - rewrite filter_cons_False by done.
    rewrite filter_cons_False; [done|]. intros HQ. apply HP, Hext; [constructor|done].
Qed.

(** X10. [size()] and [has] under EXPIRE, in every reachable state: the
    keys [size()] leaves are exactly the keys for which [has] answers
    [true] at that instant, in their order, and the number returned is
    their count; asking [has] for any of them afterwards answers [true] and
    changes nothing; and a second [size()] at the same instant returns the
    same number and changes nothing. *)
Theorem size_counts_what_has_accepts maxAge now s :
  reachable (ExpireOption maxAge) s →
  keys (cache (size (ExpireOption maxAge) now s).2)
  = filter (λ k, (has (ExpireOption maxAge) now k s).1 = true) (keys (cache s))
  ∧ (size (ExpireOption maxAge) now s).1
    = Z.of_nat (length (filter (λ k, (has (ExpireOption maxAge) now k s).1 = true)
                          (keys (cache s))))
  ∧ Forall (λ k, has (ExpireOption maxAge) now k (size (ExpireOption maxAge) now s).2
                 = (true, (size (ExpireOption maxAge) now s).2))
      (keys (cache (size (ExpireOption maxAge) now s).2))
  ∧ size (ExpireOption maxAge) now (size (ExpireOption maxAge) now s).2
    = size (ExpireOption maxAge) now s.
Proof.
  intros HI%Inv_reachable. pose proof HI as (Hnd & _).
  pose proof (cache_size_expire maxAge now s Hnd) as Hc.
  assert (keys (cache (size (ExpireOption maxAge) now s).2)
          = filter (λ k, (has (ExpireOption maxAge) now k s).1 = true) (keys (cache s)))
    as Hkeys.
  { rewrite Hc. apply keys_filter. intros [k e] Hin. simpl.
    unfold has. rewrite (Map_get_elem _ _ _ Hnd Hin). rewrite is_expired_overdue.
    by destruct (overdue now e). }
  assert (Forall (λ kv, overdue now kv.2 = false)
            (cache (size (ExpireOption maxAge) now s).2)) as Hfresh.
  { rewrite Hc. apply Forall_forall. by intros kv [? _]%list_elem_of_filter. }
  split; [done|]. split; [|split].
  - rewrite <- Hkeys. unfold keys. by rewrite length_fmap.
  - apply Forall_forall. intros k Hk. unfold keys in Hk.
    apply list_elem_of_fmap in Hk as ([k1 e] & -> & Hin). cbn [fst].
    pose proof (Inv_size (ExpireOption maxAge) now s HI) as (Hnd' & _).
    unfold has. rewrite (Map_get_elem _ _ _ Hnd' Hin).
    rewrite Forall_forall in Hfresh. specialize (Hfresh _ Hin). simpl in Hfresh.
    by rewrite is_expired_overdue, Hfresh.
  - set (s1 := (size (ExpireOption maxAge) now s).2) in *.
    unfold size at 1. unfold for_of.
    fold (sweep (ExpireOption maxAge) now (keys (cache s1)) s1).
    rewrite sweep_nothing_overdue by done. done.
Qed.
End size_again.

(** ** Caches that are only inserted into *)

Lemma window_short max (l : list string) :
  (length l ≤ Z.to_nat max)%nat → window max l = l.
Proof.
  intros Hle. unfold window.
  replace (length l - Z.to_nat max)%nat with 0%nat by lia. done.
Qed.

Lemma window_app max (l r : list string) :
  window max (window max l ++ r) = window max (l ++ r).
Proof.
  destruct (decide (length l ≤ Z.to_nat max)%nat) as [Hle|Hgt].
  - by rewrite (window_short max l).
  - unfold window. rewrite !length_app, length_drop.
    rewrite <- (drop_app_le l r (length l - Z.to_nat max)) by lia.
    rewrite drop_drop. f_equal. lia.
Qed.

Section insertion_only.
Context {V : Type}.
Implicit Types (s : State V) (e : CacheEntry V) (c : list (string * CacheEntry V)).

Lemma reverse_seqZ_S (n : nat) :
  reverse (seqZ 0 (Z.of_nat (S n))) = Z.of_nat n :: reverse (seqZ 0 (Z.of_nat n)).
Proof. by rewrite seqZ_S, Z.add_0_l, reverse_snoc. Qed.

Lemma reverse_seqZ_shift (n : nat) :
  (Z.add 1 <$> reverse (seqZ 0 (Z.of_nat n))) ++ [0]
  = reverse (seqZ 0 (Z.of_nat (S n))).
Proof.
  rewrite fmap_reverse, fmap_add_seqZ, <- reverse_cons.
  rewrite (seqZ_cons 0 (Z.of_nat (S n))) by lia.
  by replace (Z.pred (Z.of_nat (S n))) with (Z.of_nat n) by lia.
Qed.

Lemma ranks_of_aged_append c key e0 :
  ranks_of (Map_update lru_age c ++ [(key, e0)]) = (Z.add 1 <$> ranks_of c) ++ [index e0].
Proof.
  unfold ranks_of, Map_update. rewrite fmap_app. f_equal.
  rewrite <- !list_fmap_compose. apply fmap_ext_elem. intros kv _. simpl. lia.
Qed.

Lemma insertion_ordered_nil type t : insertion_ordered (V:=V) type t [].
Proof. destruct type; [done|constructor|]. split; constructor. Qed.

Lemma insertion_ordered_tail type t k0 e0 c :
  insertion_ordered type t ((k0, e0) :: c) → insertion_ordered type t c.
Proof.
  destruct type; unfold insertion_ordered.
  - unfold Map_size. cbn [length]. rewrite reverse_seqZ_S.
    unfold ranks_of. rewrite fmap_cons. by intros [= _ ?].
  - by intros [_ ?]%Forall_cons.
  - rewrite fmap_cons. intros [[_ ?]%StronglySorted_cons [_ ?]%Forall_cons]. done.
Qed.

(** In a map that was only inserted into, the victim is the first entry. *)
Lemma head_is_victim type t k0 e0 c s :
  cache s = (k0, e0) :: c → insertion_ordered type t (cache s) →
  victim_of type s = Some k0.
Proof.
  intros Hc Hord. destruct type; unfold insertion_ordered, victim_of in *.
  - unfold _get_lru_key. rewrite Hc in *.
    unfold Map_size in *. cbn [length] in *. rewrite reverse_seqZ_S in Hord.
    unfold ranks_of in Hord. rewrite fmap_cons in Hord. injection Hord as Hidx _.
    cbn [snd] in Hidx. cbn [Map_find_key].
    destruct (Z.eqb_spec (index e0) (Z.of_nat (S (length c)) - 1)); [done|lia].
  - unfold _get_lfu_key. rewrite Hc in *. rewrite fmap_cons.
    destruct (Math_min_spec (frequency e0) ((λ kv, frequency kv.2) <$> c))
      as (z & Hz & Hin & _).
    cbn [snd]. rewrite Hz.
    assert (z = 0) as ->.
    { change (z ∈ (λ kv, frequency kv.2) <$> (k0, e0) :: c) in Hin.
      apply list_elem_of_fmap in Hin as (kv & -> & Hkv).
      rewrite Forall_forall in Hord. by apply Hord. }
    apply Forall_cons in Hord as [He0 _]. cbn [snd] in He0.
    cbn [Map_find_key strict_eq]. by rewrite He0.
  - unfold _get_fifo_key. rewrite Hc in *. rewrite fmap_cons in *.
    destruct (Math_min_spec (insertedAt e0) ((λ kv, insertedAt kv.2) <$> c))
      as (z & Hz & Hin & Hle).
    cbn [snd] in *. rewrite Hz.
    destruct Hord as [[Hhead _]%StronglySorted_cons _].
    assert (z = insertedAt e0) as ->.
    { apply Forall_cons in Hle as [Hle _].
      apply elem_of_cons in Hin as [->|Hin]; [done|].
      rewrite Forall_forall in Hhead. specialize (Hhead _ Hin). lia. }
    cbn [Map_find_key strict_eq]. by rewrite Z.eqb_refl.
Qed.

Lemma insertion_ordered_append type t now key value c :
  t ≤ now → insertion_ordered type t c →
  insertion_ordered type now (aged type c ++ [(key, new_entry None value now)]).
Proof.
  intros Hnow Hord. destruct type; unfold insertion_ordered, aged in *.
  - rewrite ranks_of_aged_append, Hord. unfold Map_size.
    rewrite length_app, length_Map_update. cbn [length].
    replace (length c + 1)%nat with (S (length c)) by lia.
    apply reverse_seqZ_shift.
  - apply Forall_app. split; [done|]. by repeat constructor.
  - destruct Hord as [Hsorted Hle]. rewrite fmap_app. split.
    + apply StronglySorted_app_2; [|done|repeat constructor].
      intros x1 x2 Hx1 ->%list_elem_of_singleton.
      apply list_elem_of_fmap in Hx1 as (kv & -> & Hkv).
      rewrite Forall_forall in Hle. specialize (Hle _ Hkv). simpl in *. lia.
    + apply Forall_app. split; [|repeat constructor; simpl; lia].
      eapply Forall_impl; [exact Hle|]. intros kv H. simpl in *. lia.
Qed.

(** One [set] on a map that was only inserted into and is within its bound. *)
Lemma set_insertion_step max type t key now value s :
  0 < max → Inv (NonExpireOption max type) s → fresh_uuid key s = true → t ≤ now →
  insertion_ordered type t (cache s) → Map_size (cache s) ≤ max →
  keys (cache (set (NonExpireOption max type) key now value s).2)
  = window max (keys (cache s) ++ [key])
  ∧ insertion_ordered type now (cache (set (NonExpireOption max type) key now value s).2)
  ∧ Map_size (cache (set (NonExpireOption max type) key now value s).2) ≤ max.
Proof.
  intros Hmax (Hnd & Hall & _) [_ Hfresh]%fresh_uuid_spec Hnow Hord Hbound.
  rewrite cache_set_bounded by done.
  assert (∃ c', cache (evict max (victim_of type s) s) = c'
                ∧ insertion_ordered type t c'
                ∧ Map_get key c' = None
                ∧ keys c' ++ [key] = window max (keys (cache s) ++ [key])
                ∧ Map_size c' + 1 ≤ max) as (c' & -> & Hord' & Hfresh' & Hkeys & Hsize).
  { destruct (Z.le_gt_cases max (Map_size (cache s))) as [Hfull|Hroom].
    - destruct (cache s) as [|[k0 e0] c] eqn:Hc.
      { unfold Map_size in Hfull. simpl in Hfull. lia. }
      exists c. rewrite (head_is_victim type t k0 e0 c s Hc) by (by rewrite Hc).
      assert (truthy_string k0 = true) as Htruthy.
      { apply Forall_cons in Hall as [[? _] _]. done. }
      unfold keys in Hnd. rewrite fmap_cons in Hnd. apply NoDup_cons in Hnd as [Hk0 Hnd].
      split.
      + unfold evict. rewrite Htruthy, Hc. cbn [andb].
        destruct (Z.geb_spec (Map_size ((k0, e0) :: c)) max); [|lia].
        cbn [with_cache cache Map_delete]. rewrite String.eqb_refl.
        apply Map_delete_absent. by apply Map_get_None.
      + split; [by apply (insertion_ordered_tail type t k0 e0)|].
        split.
        * simpl in Hfresh. by destruct (String.eqb key k0).
        * unfold Map_size in *. cbn [length] in *. split; [|lia].
          unfold window, keys. rewrite fmap_cons, length_app. cbn [length app].
          rewrite length_fmap.
          replace (S (length c) + 1 - Z.to_nat max)%nat with 1%nat by lia. done.
    - exists (cache s).
      split.
      + unfold evict. destruct (victim_of type s) as [k|]; [|done].
        destruct (Z.geb_spec (Map_size (cache s)) max); [lia|].
        by rewrite andb_false_r.
      + split; [done|]. split; [done|]. split; [|lia].
        symmetry. apply window_short. unfold Map_size, keys in *.
        rewrite length_app, length_fmap. simpl. lia. }
  rewrite Map_set_fresh.
  - split; [|split].
    + rewrite <- Hkeys. unfold keys. rewrite fmap_app. f_equal. apply keys_aged.
    + by apply (insertion_ordered_append type t).
    + unfold Map_size in *. rewrite length_app, length_aged. simpl. lia.
  - apply Map_get_None. rewrite keys_aged. by apply Map_get_None.
Qed.

Lemma run_insertions max type ops :
  0 < max →
  ∀ t s,
    Inv (NonExpireOption max type) s →
    insertion_ordered type t (cache s) → Map_size (cache s) ≤ max →
    insertions_only t ops = true → trace_ok (NonExpireOption max type) ops s = true →
    keys (cache (run (NonExpireOption max type) ops s))
    = window max (keys (cache s) ++ inserted_keys ops)
    ∧ Map_size (cache (run (NonExpireOption max type) ops s)) ≤ max.
Proof.
  intros Hmax. induction ops as [|op ops IH]; intros t s HI Hord Hbound Hins Hok.
  - simpl. rewrite app_nil_r. split; [|done]. symmetry. apply window_short.
    unfold Map_size, keys in *. rewrite length_fmap. lia.
  - destruct op as [key now value| | | | | |]; try done.
    cbn [insertions_only trace_ok env_ok run exec inserted_keys] in *.
    apply andb_true_iff in Hins as [Ht%Z.leb_le Hins].
    apply andb_true_iff in Hok as [Henv Hok].
    destruct (set_insertion_step max type t key now value s)
      as (Hkeys & Hord' & Hbound'); try done.
    destruct (IH now (set (NonExpireOption max type) key now value s).2)
      as [Hrun Hsize]; try done.
    { by apply Inv_set. }
    split; [|done]. rewrite Hrun, Hkeys, window_app. by rewrite <- app_assoc.
Qed.

(** X11. Insertions without reads. Under LRU, LFU and FIFO with a positive
    capacity [max], after any sequence of [set] calls on a new cache (for
    FIFO: made at times that never go back), and nothing else, the cache
    holds exactly the last [max] values inserted, in insertion order: each
    [set] at capacity evicts the oldest entry, and the size never exceeds
    [max]. *)
Theorem insertions_keep_last_max max type t ops :
  0 < max → insertions_only t ops = true →
  trace_ok (NonExpireOption max type) ops initial_state = true →
  keys (cache (run (NonExpireOption max type) ops (initial_state (V:=V))))
  = window max (inserted_keys ops)
  ∧ Map_size (cache (run (NonExpireOption max type) ops (initial_state (V:=V)))) ≤ max.
Proof.
  intros Hmax Hins Hok.
  apply (run_insertions max type ops Hmax t initial_state); try done.
  - apply Inv_initial.
  - apply insertion_ordered_nil.
  - unfold Map_size. simpl. lia.
Qed.
End insertion_only.

Section set_frame.
Context {V : Type}.
Implicit Types (s : State V) (e : CacheEntry V) (opt : Option).

Lemma expire_entry_is_remove maxAge key s :
  expire_entry key s = remove (ExpireOption maxAge) key s.
Proof.
  unfold expire_entry, remove, clear_timer. simpl.
  destruct (timers s !! key) as [id|]; [|done]. by destruct (truthy_number id).
Qed.

(** X12. Reads under EXPIRE, in any state. A [get] or [has] that finds an
    entry whose deadline has passed does what [remove] does and fails; one
    that finds an entry whose deadline has not passed returns its content
    (resp. [true]) and changes nothing at all; one that finds no entry fails
    and changes nothing. *)
Theorem expire_read_is_remove_or_pure maxAge now key s :
  match Map_get key (cache s) with
  | Some e =>
      if overdue now e
      then get (ExpireOption maxAge) now key s = (None, remove (ExpireOption maxAge) key s)
           ∧ has (ExpireOption maxAge) now key s
             = (false, remove (ExpireOption maxAge) key s)
      else get (ExpireOption maxAge) now key s = (Some (content e), s)
           ∧ has (ExpireOption maxAge) now key s = (true, s)
  | None =>
      get (ExpireOption maxAge) now key s = (None, s)
      ∧ has (ExpireOption maxAge) now key s = (false, s)
  end.
Proof.
  unfold get, has. destruct (Map_get key (cache s)) as [e|]; [|done].
  rewrite is_expired_overdue. destruct (overdue now e); [|done].
  by rewrite (expire_entry_is_remove maxAge).
Qed.

Lemma victim_of_in_keys type s k : victim_of type s = Some k → k ∈ keys (cache s).
Proof.
  intros Hk.
  assert (∃ p, Map_find_key p (cache s) = Some k) as [p Hp].
  { destruct type; simpl in Hk; eexists; exact Hk. }
  apply Map_find_key_Some in Hp as (pre & v & post & -> & _).
  unfold keys. rewrite fmap_app, fmap_cons, elem_of_app, elem_of_cons. tauto.
Qed.

Lemma Map_get_aged type k (c : list (string * CacheEntry V)) :
  Map_get k (aged type c)
  = (λ e, match type with LRU => with_index (index e + 1) e | _ => e end) <$> Map_get k c.
Proof.
  destruct type; simpl; [apply Map_get_update|..]; by destruct (Map_get k c).
Qed.

(** X13. What a [set] keeps, under LRU, LFU and FIFO, in every reachable
    state. The new key goes to the end of the map; at most one old entry is
    evicted, and none while the size is below [max]; the order of the
    surviving keys is kept; and every surviving old entry is as it was,
    except that under LRU its rank is incremented by 1. *)
Theorem set_evicts_at_most_one max type key now value s :
  reachable (NonExpireOption max type) s → fresh_uuid key s = true →
  (keys (cache (set (NonExpireOption max type) key now value s).2)
   = keys (cache s) ++ [key]
   ∨ ∃ victim,
       victim ∈ keys (cache s) ∧ max ≤ Map_size (cache s)
       ∧ keys (cache (set (NonExpireOption max type) key now value s).2)
         = filter (λ k, k ≠ victim) (keys (cache s)) ++ [key])
  ∧ (Map_size (cache s) < max →
     keys (cache (set (NonExpireOption max type) key now value s).2)
     = keys (cache s) ++ [key])
  ∧ (∀ k' e', k' ≠ key →
       Map_get k' (cache (set (NonExpireOption max type) key now value s).2) = Some e' →
       ∃ e, Map_get k' (cache s) = Some e
            ∧ e' = match type with
                   | LRU => with_index (index e + 1) e
                   | _ => e
                   end).
Proof.
  intros (Hnd & _)%Inv_reachable [_ Hfresh]%fresh_uuid_spec.
  rewrite cache_set_bounded by done.
  set (c' := cache (evict max (victim_of type s) s)).
  assert (Map_get key c' = None) as Hfresh'.
  { unfold c'. destruct (cache_evict max (victim_of type s) s)
      as [->|(k & _ & _ & _ & ->)]; [done|].
    destruct (decide (k = key)) as [->|Hne];
      [apply Map_get_delete_eq|by rewrite Map_get_delete_ne]. }
  assert (keys (Map_set key (new_entry None value now) (aged type c')) = keys c' ++ [key])
    as Hkeys.
  { rewrite Map_set_fresh by (by rewrite Map_get_aged, Hfresh').
    unfold keys. rewrite fmap_app. f_equal. apply keys_aged. }
  rewrite Hkeys. split; [|split].
  - unfold c'. destruct (cache_evict max (victim_of type s) s)
      as [->|(k & Hk & _ & Hfull & ->)]; [by left|].
    right. exists k. split; [by apply (victim_of_in_keys type)|]. split; [done|].
    by rewrite keys_Map_delete.
  - intros Hroom. unfold c'. destruct (cache_evict max (victim_of type s) s)
      as [->|(k & _ & _ & Hfull & _)]; [done|lia].
  - intros k' e' Hne. rewrite Map_get_set_ne by done. rewrite Map_get_aged.
    destruct (Map_get k' c') as [e|] eqn:He; [|done]. simpl. intros [= <-].
    exists e. split; [|done]. unfold c' in He.
    destruct (cache_evict max (victim_of type s) s) as [Heq|(k & _ & _ & _ & Heq)];
      rewrite Heq in He; [done|].
    destruct (decide (k = k')) as [->|Hk]; [by rewrite Map_get_delete_eq in He|].
    by rewrite Map_get_delete_ne in He.
Qed.
End set_frame.

Section lru_insertions.
Context {V : Type}.
Implicit Types (s : State V) (e : CacheEntry V).

(** X14. [set] under LRU while the ranks are in order. In a reachable state
    whose ranks are a permutation of [0 .. n-1], a [set] leaves ranks that
    are again a permutation of [0 .. n'-1]; and when the cache is at
    capacity ([max] positive, size at least [max]) it evicts the one entry
    of rank [n - 1], which is the entry of maximal rank, adds 1 to the rank
    of every other entry and appends the new entry with rank 0. So a [set]
    on such a state that is within the capacity stays within it. *)
Theorem lru_set_keeps_ranks max key now value s :
  reachable (NonExpireOption max LRU) s → rank_invariant s →
  fresh_uuid key s = true →
  rank_invariant (set (NonExpireOption max LRU) key now value s).2
  ∧ (0 < max → max ≤ Map_size (cache s) →
     ∃ pre victim ve post,
       cache s = pre ++ (victim, ve) :: post
       ∧ index ve = Map_size (cache s) - 1
       ∧ Forall (λ kv, index kv.2 < index ve) (pre ++ post)
       ∧ cache (set (NonExpireOption max LRU) key now value s).2 =
           Map_update lru_age (pre ++ post) ++ [(key, new_entry None value now)])
  ∧ (0 < max → Map_size (cache s) ≤ max →
     Map_size (cache (set (NonExpireOption max LRU) key now value s).2) ≤ max).
Proof.
  intros HI%Inv_reachable Hr Hfresh.
  destruct (lru_set_ranked max key now value s HI Hr Hfresh) as [Hkeep Hfull].
  split; [done|]. split; [done|]. intros Hmax Hbound.
  destruct (Z.le_gt_cases max (Map_size (cache s))) as [Hle|Hroom].
  - destruct (Hfull Hmax Hle) as (pre & victim & ve & post & Hc & _ & _ & ->).
    rewrite Hc in Hbound. unfold Map_size in *.
    rewrite !length_app, length_Map_update in *. simpl in *.
    rewrite length_app in *. lia.
  - destruct HI as (Hnd & _). rewrite cache_set_bounded by done.
    unfold Map_size in *.
    pose proof (length_Map_set_le key (new_entry None value now)
                  (aged LRU (cache (evict max (victim_of LRU s) s)))) as Hset.
    rewrite length_aged in Hset.
    destruct (cache_evict max (victim_of LRU s) s) as [Heq|(k & _ & _ & Hge & _)];
      [|unfold Map_size in Hge; lia].
    rewrite Heq in Hset |- *. lia.
Qed.
End lru_insertions.

Section stored_values.
Context {V : Type}.
Implicit Types (s : State V) (e : CacheEntry V) (opt : Option).

Lemma Map_get_filter_Some {A} (P : string * A → Prop) `{!∀ x, Decision (P x)}
    k v (c : list (string * A)) :
  NoDup (keys c) → Map_get k (filter P c) = Some v → Map_get k c = Some v.
Proof.
  intros Hnd Hget. apply Map_get_Some_elem in Hget.
  apply list_elem_of_filter in Hget as [_ Hin]. by apply Map_get_elem.
Qed.

Lemma Map_get_delete_Some {A} k k' v (c : list (string * A)) :
  Map_get k (Map_delete k' c) = Some v → Map_get k c = Some v.
Proof.
  destruct (decide (k' = k)) as [->|Hne].
  - by rewrite Map_get_delete_eq.
  - by rewrite Map_get_delete_ne.
Qed.

Lemma same_payload_touched type now key k (c : list (string * CacheEntry V)) e' :
  Map_get k (touched type now key c) = Some e' →
  ∃ e, Map_get k c = Some e ∧ same_payload e' e.
Proof.
  destruct type; simpl; rewrite Map_get_update;
    destruct (Map_get k c) as [e|]; try done; simpl; intros [= <-];
    exists e; (split; [done|]);
    unfold lru_touch, lfu_touch, fifo_touch; by destruct (String.eqb key k).
Qed.

(** No call but a [set] that generates the key creates an entry for it,
    and no call changes the content or the deadline of an entry. *)
Lemma exec_keeps_payload opt op k e' s :
  Inv opt s →
  (∀ now value, op ≠ OpSet k now value) →
  Map_get k (cache (exec opt op s)) = Some e' →
  ∃ e, Map_get k (cache s) = Some e ∧ same_payload e' e.
Proof.
  intros (Hnd & _) Hop.
  assert (∀ c, Map_get k c = Some e' → c = cache s →
               ∃ e, Map_get k (cache s) = Some e ∧ same_payload e' e) as Hsame.
  { intros c H ->. by exists e'. }
  assert (∀ k', Map_get k (Map_delete k' (cache s)) = Some e' →
               ∃ e, Map_get k (cache s) = Some e ∧ same_payload e' e) as Hdel.
  { intros k' H%Map_get_delete_Some. by exists e'. }
  destruct op as [key now value|now key|now key|key| |now|timerId]; cbn [exec].
  - assert (key ≠ k) as Hne by (intros ->; by apply (Hop now value)).
    destruct opt as [maxAge|max type].
    + simpl. rewrite Map_get_set_ne by done. eauto.
    + rewrite cache_set_bounded by done. rewrite Map_get_set_ne by done.
      rewrite Map_get_aged.
      destruct (Map_get k (cache (evict max (victim_of type s) s))) as [e|] eqn:He;
        [|done].
      simpl. intros [= <-].
      assert (Map_get k (cache s) = Some e) as He0.
      { destruct (cache_evict max (victim_of type s) s) as [Heq|(k' & _ & _ & _ & Heq)];
          rewrite Heq in He; [done|by apply Map_get_delete_Some in He]. }
      exists e. split; [done|]. by destruct type.
  - destruct opt as [maxAge|max type].
    + unfold get. destruct (Map_get key (cache s)) as [e|]; [|eauto].
      destruct (is_expired (ExpireOption maxAge) now e); cbn [snd]; [|eauto].
      rewrite cache_expire_entry. apply Hdel.
    + rewrite get_bounded by done. destruct (Map_get key (cache s)) as [e|]; [|eauto].
      cbn [snd with_cache cache]. apply same_payload_touched.
  - unfold has. destruct (Map_get key (cache s)) as [e|]; [|eauto].
    destruct (is_expired opt now e); cbn [snd]; [|eauto].
    rewrite cache_expire_entry. apply Hdel.
  - rewrite cache_remove. apply Hdel.
  - done.
  - destruct opt as [maxAge|max type]; [|cbn [size snd]; eauto].
    rewrite cache_size_expire by done. intros H%Map_get_filter_Some; [|done]. eauto.
  - unfold timeout_fires. destruct (rt_timeouts s !! timerId) as [key|]; [|eauto].
    cbn [cache]. apply Hdel.
Qed.

Lemma run_keeps_payload opt k ops :
  ∀ s e',
    Inv opt s → trace_ok opt ops s = true → k ∉ inserted_keys ops →
    Map_get k (cache (run opt ops s)) = Some e' →
    ∃ e, Map_get k (cache s) = Some e ∧ same_payload e' e.
Proof.
  induction ops as [|op ops IH]; intros s e' HI Hok Hk Hget; simpl in *.
  - exists e'. by split.
  - apply andb_true_iff in Hok as [Henv Hok].
    assert ((k ∉ inserted_keys ops) ∧ ∀ now value, op ≠ OpSet k now value) as [Hk' Hop].
    { destruct op; simpl in Hk; try done.
      apply not_elem_of_cons in Hk as [Hne Hk]. split; [done|]. congruence. }
    destruct (IH (exec opt op s) e') as (e1 & He1 & [Hc1 Hx1]); try done.
    { by apply Inv_exec. }
    destruct (exec_keeps_payload opt op k e1 s HI Hop He1) as (e & He & [Hc Hx]).
    exists e. split; [done|]. split; congruence.
Qed.

(** X15. A cache never serves another value. In a reachable state under
    any policy, after [set(value)] has returned [key] and after any further
    calls and timeouts in which that key is not generated again, a [get] of
    [key] returns [value] or [undefined], never anything else; and under
    EXPIRE it returns [undefined] whenever it is made after
    [now + maxAge], whatever happened in between. *)
Theorem get_returns_what_was_set opt key now value ops now' s :
  reachable opt s → fresh_uuid key s = true →
  trace_ok opt ops (set opt key now value s).2 = true →
  key ∉ inserted_keys ops →
  ((get opt now' key (run opt ops (set opt key now value s).2)).1 = None
   ∨ (get opt now' key (run opt ops (set opt key now value s).2)).1 = Some value)
  ∧ match opt with
    | ExpireOption maxAge =>
        now' > now + maxAge →
        (get opt now' key (run opt ops (set opt key now value s).2)).1 = None
    | NonExpireOption _ _ => True
    end.
Proof.
  intros HI%Inv_reachable Hfresh Hok Hk.
  pose proof (Inv_set opt key now value s HI Hfresh) as HI1.
  destruct HI as (Hnd & _).
  pose proof (Map_get_after_set opt key now value s Hnd) as Hset.
  assert (∀ e', Map_get key (cache (run opt ops (set opt key now value s).2)) = Some e' →
                content e' = value
                ∧ expires e' = match opt with
                               | ExpireOption maxAge => Some (now + maxAge)
                               | NonExpireOption _ _ => None
                               end) as Hpayload.
  { intros e' He'.
    destruct (run_keeps_payload opt key ops _ e' HI1 Hok Hk He') as (e & He & [Hc Hx]).
    rewrite Hset in He. injection He as <-. by split. }
  unfold get.
  destruct (Map_get key (cache (run opt ops (set opt key now value s).2))) as [e'|];
    [|split; [by left|by destruct opt]].
  destruct (Hpayload e' eq_refl) as [Hc Hx]. split.
  - destruct (is_expired opt now' e'); [by left|right]. simpl. by rewrite Hc.
  - destruct opt as [maxAge|max type]; [|done]. intros Hlate.
    unfold is_expired. rewrite Hx. by destruct (Z.gtb_spec now' (now + maxAge)); [|lia].
Qed.
End stored_values.

(** ** The further properties at concrete caches *)

Lemma clear_resets_cache_witness :
  let s := run expire10 three_timed initial_state in
  reachable expire10 s
  ∧ keys (cache s) = ["a"; "b"; "c"]
  ∧ clear expire10 s = mkState [] ∅ ∅ 4
  ∧ size expire10 5 (clear expire10 s) = (0, clear expire10 s).
Proof.
  intros s.
  assert (reachable expire10 s) as Hr by (by apply reachable_run).
  split; [exact Hr|]. split; [reflexivity|].
  destruct (clear_resets_cache expire10 s Hr) as (Hclear & _ & _ & Hsize & _).
  split; [exact Hclear|apply Hsize].
Defined.

Lemma remove_then_absent_witness :
  let s := run expire10 three_timed initial_state in
  reachable expire10 s
  ∧ Map_get "z" (cache s) = None
  ∧ remove expire10 "z" s = s
  ∧ get expire10 5 "b" (remove expire10 "b" s) = (None, remove expire10 "b" s)
  ∧ timers (remove expire10 "b" s) !! "a" = Some 1.
Proof.
  intros s.
  assert (reachable expire10 s) as Hr by (by apply reachable_run).
  split; [exact Hr|]. split; [reflexivity|].
  destruct (remove_then_absent expire10 "z" s Hr) as (Habsent & _).
  destruct (remove_then_absent expire10 "b" s Hr) as (_ & _ & Hget & _ & _ & _ & Hother & _).
  split; [apply Habsent; reflexivity|]. split; [apply Hget|].
  etrans; [by apply Hother|reflexivity].
Defined.

Lemma set_then_get_witness :
  let s := run expire10 three_timed initial_state in
  reachable expire10 s
  ∧ fresh_uuid "d" s = true
  ∧ (get expire10 14 "d" (set expire10 "d" 4 "D" s).2).1 = Some "D"
  ∧ (get lru3 99 "d" (set lru3 "d" 4 "D" (run lru3 read_middle initial_state)).2).1
    = Some "D".
Proof.
  intros s.
  assert (reachable expire10 s) as Hr by (by apply reachable_run).
  assert (reachable lru3 (run lru3 read_middle initial_state)) as Hr'
    by (by apply reachable_run).
  split; [exact Hr|]. split; [reflexivity|]. split.
  - apply (set_then_get expire10 "d" 4 "D" 14 s Hr); [reflexivity|simpl; lia].
  - apply (set_then_get lru3 "d" 4 "D" 99 _ Hr'); [reflexivity|exact I].
Defined.

Lemma expire_set_appends_witness :
  let s := run expire10 three_timed initial_state in
  fresh_uuid "d" s = true
  ∧ keys (cache (set expire10 "d" 4 "D" s).2) = ["a"; "b"; "c"; "d"]
  ∧ timers (set expire10 "d" 4 "D" s).2 !! "d" = Some 4
  ∧ (get expire10 15 "d" (set expire10 "d" 4 "D" s).2).1 = None.
Proof.
  intros s.
  destruct (expire_set_appends 10 "d" 4 "D" s) as (Hc & _ & Ht & _ & _ & _ & Hlate);
    [reflexivity|].
  split; [reflexivity|]. split; [|split].
  - unfold expire10. rewrite Hc. reflexivity.
  - exact Ht.
  - apply (Hlate 15). lia.
Defined.

Lemma timeout_deletes_its_entry_witness :
  let s := run expire10 three_timed initial_state in
  reachable expire10 s
  ∧ rt_timeouts s !! 2 = Some "b"
  ∧ keys (cache (timeout_fires 2 s)) = ["a"; "c"]
  ∧ Map_get "b" (cache (timeout_fires 2 s)) = None
  ∧ timeout_fires 7 s = s.
Proof.
  intros s.
  assert (reachable expire10 s) as Hr by (by apply reachable_run).
  split; [exact Hr|]. split; [reflexivity|]. split; [reflexivity|].
  destruct (timeout_deletes_its_entry 10 s Hr) as [Hfire Hspent].
  destruct (Hfire 2 "b") as (_ & _ & _ & Hgone & _); [reflexivity|].
  split; [exact Hgone|]. apply Hspent. reflexivity.
Defined.

Lemma reachable_state_invariants_witness :
  let s := run expire10 (three_timed ++ [OpRemove "b"; OpTimeout 1]) initial_state in
  reachable expire10 s
  ∧ keys (cache s) = ["c"]
  ∧ NoDup (keys (cache s))
  ∧ ∀ k timerId, timers s !! k = Some timerId ↔ rt_timeouts s !! timerId = Some k.
Proof.
  intros s.
  assert (reachable expire10 s) as Hr by (by apply reachable_run).
  split; [exact Hr|]. split; [reflexivity|].
  destruct (reachable_state_invariants expire10 s Hr) as (Hnd & _ & _ & _ & Hmirror & _).
  split; [exact Hnd|exact Hmirror].
Defined.

Lemma lru_get_keeps_ranks_iff_oldest_witness :
  let s := run lru3 three_timed initial_state in
  reachable lru3 s
  ∧ rank_invariant s
  ∧ Map_get "a" (cache s) = Some (mkEntry None "A" 2 0 1)
  ∧ rank_invariant (get lru3 4 "a" s).2
  ∧ ¬ rank_invariant (get lru3 4 "b" s).2.
Proof.
  intros s.
  assert (reachable lru3 s) as Hr by (by apply reachable_run).
  assert (rank_invariant s) as Hranked by (apply (reverse_Permutation [0; 1; 2])).
  split; [exact Hr|]. split; [exact Hranked|]. split; [reflexivity|]. split.
  - apply (lru_get_keeps_ranks_iff_oldest 3 4 "a" (mkEntry None "A" 2 0 1) s Hr Hranked);
      reflexivity.
  - intros Hbad.
    apply (lru_get_keeps_ranks_iff_oldest 3 4 "b" (mkEntry None "B" 1 0 2) s Hr Hranked)
      in Hbad; [|reflexivity].
    vm_compute in Hbad. discriminate Hbad.
Defined.

Lemma lfu_fifo_size_bound_witness :
  let s := run fifo3 (read_first ++ [OpSet "d" 5 "D"; OpSet "e" 6 "E"]) initial_state in
  reachable fifo3 s
  ∧ Map_size (cache s) = 3
  ∧ Map_size (cache s) ≤ Z.max 1 3.
Proof.
  intros s.
  assert (reachable fifo3 s) as Hr by (by apply reachable_run).
  split; [exact Hr|]. split; [reflexivity|].
  apply (lfu_fifo_size_bound 3 FIFO s); [discriminate|exact Hr].
Defined.

Lemma size_counts_what_has_accepts_witness :
  let s := run expire10 three_timed initial_state in
  reachable expire10 s
  ∧ (has expire10 12 "a" s).1 = false
  ∧ (has expire10 12 "b" s).1 = true
  ∧ keys (cache (size expire10 12 s).2) = ["b"; "c"]
  ∧ size expire10 12 (size expire10 12 s).2 = size expire10 12 s.
Proof.
  intros s.
  assert (reachable expire10 s) as Hr by (by apply reachable_run).
  split; [exact Hr|]. split; [reflexivity|]. split; [reflexivity|].
  destruct (size_counts_what_has_accepts 10 12 s Hr) as (Hkeys & _ & _ & Htwice).
  split; [|exact Htwice]. etrans; [exact Hkeys|reflexivity].
Defined.

Lemma insertions_keep_last_max_witness :
  0 < 3
  ∧ insertions_only 0 four_inserted = true
  ∧ trace_ok lru3 four_inserted initial_state = true
  ∧ keys (cache (run lru3 four_inserted initial_state)) = ["b"; "c"; "d"]
  ∧ keys (cache (run fifo3 four_inserted initial_state)) = ["b"; "c"; "d"]
  ∧ keys (cache (run lfu3 four_inserted initial_state)) = ["b"; "c"; "d"].
Proof.
  split; [lia|]. split; [reflexivity|]. split; [reflexivity|].
  destruct (insertions_keep_last_max 3 LRU 0 four_inserted) as [Hlru _];
    [lia|reflexivity|reflexivity|].
  destruct (insertions_keep_last_max 3 FIFO 0 four_inserted) as [Hfifo _];
    [lia|reflexivity|reflexivity|].
  destruct (insertions_keep_last_max 3 LFU 0 four_inserted) as [Hlfu _];
    [lia|reflexivity|reflexivity|].
  split; [|split]; (etrans; [eassumption|reflexivity]).
Defined.

Lemma set_evicts_at_most_one_witness :
  let s := run lru3 three_timed initial_state in
  reachable lru3 s
  ∧ fresh_uuid "d" s = true
  ∧ keys (cache (set lru3 "d" 4 "D" s).2) = ["b"; "c"; "d"]
  ∧ ∃ e, Map_get "b" (cache s) = Some e
         ∧ mkEntry None "B" 2 0 2 = with_index (index e + 1) e.
Proof.
  intros s.
  assert (reachable lru3 s) as Hr by (by apply reachable_run).
  split; [exact Hr|]. split; [reflexivity|]. split; [reflexivity|].
  destruct (set_evicts_at_most_one 3 LRU "d" 4 "D" s Hr) as (_ & _ & Hold); [reflexivity|].
  apply (Hold "b"); [discriminate|reflexivity].
Defined.

Lemma lru_set_keeps_ranks_witness :
  let s := run lru3 three_timed initial_state in
  reachable lru3 s
  ∧ rank_invariant s
  ∧ fresh_uuid "d" s = true
  ∧ rank_invariant (set lru3 "d" 4 "D" s).2
  ∧ ranks (set lru3 "d" 4 "D" s).2 = [2; 1; 0].
Proof.
  intros s.
  assert (reachable lru3 s) as Hr by (by apply reachable_run).
  assert (rank_invariant s) as Hranked by (apply (reverse_Permutation [0; 1; 2])).
  split; [exact Hr|]. split; [exact Hranked|]. split; [reflexivity|].
  destruct (lru_set_keeps_ranks 3 "d" 4 "D" s Hr Hranked) as (Hkeep & _); [reflexivity|].
  split; [exact Hkeep|reflexivity].
Defined.

Lemma get_returns_what_was_set_witness :
  let s := run lfu3 three_timed initial_state in
  let later := [OpGet 5 "a"; OpSet "e" 6 "E"; OpRemove "c"] in
  reachable lfu3 s
  ∧ fresh_uuid "d" s = true
  ∧ trace_ok lfu3 later (set lfu3 "d" 4 "D" s).2 = true
  ∧ ("d" ∉ inserted_keys later)
  ∧ (get lfu3 7 "d" (run lfu3 later (set lfu3 "d" 4 "D" s).2)).1 = Some "D".
Proof.
  intros s later.
  assert (reachable lfu3 s) as Hr by (by apply reachable_run).
  assert ("d" ∉ inserted_keys later) as Hnew.
  { intros Hin. apply elem_of_cons in Hin as [Hin|Hin]; [discriminate Hin|].
    by apply elem_of_nil in Hin. }
  split; [exact Hr|]. split; [reflexivity|]. split; [reflexivity|]. split; [exact Hnew|].
  destruct (get_returns_what_was_set lfu3 "d" 4 "D" later 7 s Hr) as [[Hnone|Hsome] _];
    [reflexivity|reflexivity|exact Hnew| |exact Hsome].
  vm_compute in Hnone. discriminate Hnone.
Defined.

